(** * feecalc: a shallow embedding of the rule execution pipeline

    The development follows the Go sources file by file:
    - [decimal]: the part of shopspring/decimal the engine calls;
    - values of Go's [interface{}] that rules and contexts carry;
    - expression.go: [newFeeItem], [toDecimal], [preprocessExpression],
      [executeSingleExpression], [extractExpressionStrings],
      [extractFeeItems], [executeExpression];
    - fee_engine.go: [Context] methods, [New], [AddRule], [Execute],
      [ExecuteN], [buildExecuteResult], [summarizeFeeItems].

    Go strings are byte strings: they are [string] here, one [ascii] per
    byte.  Go's [int] is taken to be 64 bits wide. *)

From Stdlib Require Import ZArith QArith Qpower Lia SpecFloat Ascii String.
From stdpp Require Import base option list strings gmap.

#[local] Set Warnings "-register-all".

Local Open Scope Z_scope.

(** ** Machine integers *)

(** [int64(v)]: conversion of an integer to a signed 64-bit integer,
    two's complement wrap-around. *)
Definition to_int64 (v : Z) : Z := (v + 2 ^ 63) mod 2 ^ 64 - 2 ^ 63.

Definition min_int64 : Z := - 2 ^ 63.
Definition max_int64 : Z := 2 ^ 63 - 1.

Definition is_int64 (v : Z) : Prop := min_int64 <= v <= max_int64.

(** ** Errors *)

(** The errors of the package, by the format string that builds them; a
    [%w] verb keeps its cause.  [panic] stands for a run-time panic of
    Go (nil dereference, index out of range) or of a library, with what
    it reports. *)
Inductive error : Type :=
  | errContextNil                       (* context cannot be nil *)
  | errCountNotPositive                 (* count must be positive *)
  | errCompile (cause : string)         (* failed to compile expression: %w *)
  | errExecute (cause : string)         (* failed to execute expression: %w *)
  | errRuleAt (i : Z) (cause : error)   (* error executing rule at index %d: %w *)
  | panic (what : string).

(** ** shopspring/decimal *)

(** The arbitrary-precision decimal of the external library: a number
    [value * 10 ^ exp] with an unbounded integer coefficient.  Only what
    the engine calls is modelled: the zero value of the struct, the
    constant [Zero], [NewFromInt] and [Add]. *)
Module decimal.

Record Decimal : Type := { value : Z; exp : Z }.

(** [decimal.Decimal{}], what a Go map yields for a missing key. *)
Definition zeroValue : Decimal := {| value := 0; exp := 0 |}.

(** [decimal.Zero], declared as [New(0, 1)]. *)
Definition Zero : Decimal := {| value := 0; exp := 1 |}.

Definition NewFromInt (v : Z) : Decimal := {| value := v; exp := 0 |}.

(** [d.rescale(exp)]: the same number at another exponent (truncating
    when the exponent grows). *)
Definition rescale (d : Decimal) (e : Z) : Decimal :=
  if exp d =? e then d
  else
    let diff := Z.abs (e - exp d) in
    let expScale := 10 ^ diff in
    if e >? exp d
    then {| value := Z.quot (value d) expScale; exp := e |}
    else {| value := value d * expScale; exp := e |}.

Definition RescalePair (d1 d2 : Decimal) : Decimal * Decimal :=
  if exp d1 <? exp d2 then (d1, rescale d2 (exp d1))
  else if exp d1 >? exp d2 then (rescale d1 (exp d2), d2)
  else (d1, d2).

(** [d.Add(d2)] *)
Definition Add (d d2 : Decimal) : Decimal :=
  let '(rd, rd2) := RescalePair d d2 in
  {| value := value rd + value rd2; exp := exp rd |}.

(** The rational number a decimal stands for. *)
Definition toQ (d : Decimal) : Q := (inject_Z (value d) * 10 ^ exp d)%Q.

(** [d.Sub(d2)] *)
Definition Sub (d d2 : Decimal) : Decimal :=
  let '(rd, rd2) := RescalePair d d2 in
  {| value := value rd - value rd2; exp := exp rd |}.

(** [d.Neg()] *)
Definition Neg (d : Decimal) : Decimal :=
  {| value := - value d; exp := exp d |}.

(** The conversions whose algorithms are the library's own business
    (shortest round-trip digits of a finite float, the grammar of
    decimal literals) are an interface: [finiteFloat64] and
    [finiteFloat32] give the decimal of a finite float of either width,
    and [NewFromString] returns [None] where the library returns an
    error. *)
Class Conversions : Type := {
  finiteFloat64 : spec_float -> Decimal;
  finiteFloat32 : spec_float -> Decimal;
  NewFromString : string -> option Decimal
}.

(** [math.IsNaN(val) || math.IsInf(val, 0)], with what [%v] prints for
    the float. *)
Definition notFinite (val : spec_float) : option string :=
  match val with
  | S754_nan => Some "NaN"
  | S754_infinity false => Some "+Inf"
  | S754_infinity true => Some "-Inf"
  | _ => None
  end.

(** [decimal.NewFromFloat(value)]: the library panics on NaN and on the
    infinities. *)
Definition NewFromFloat `{Conversions} (value : spec_float)
    : error + Decimal :=
  match notFinite value with
  | Some what => inl (panic ("Cannot create a Decimal from " +:+ what))
  | None => inr (finiteFloat64 value)
  end.

(** [decimal.NewFromFloat32(value)], with the same panic. *)
Definition NewFromFloat32 `{Conversions} (value : spec_float)
    : error + Decimal :=
  match notFinite value with
  | Some what => inl (panic ("Cannot create a Decimal from " +:+ what))
  | None => inr (finiteFloat32 value)
  end.

End decimal.

Export decimal.

(** ** types.go *)

(** FeeItem represents a fee with amount and currency. *)
Record FeeItem : Type := { Amount : Decimal; Currency : string }.

(** ** Dynamic values *)

(** The functions [executeExpression] installs in the environment. *)
Inductive Builtin : Type :=
  | BNewFeeItem | BSet | BAdd | BSub | BMul | BDiv | BNeg.

(** A value of Go's [interface{}], by dynamic type: the scalar kinds of
    [toDecimal]'s type switch, strings, booleans, fee items, the two
    slice types [executeExpression] inspects, the slice type
    [[]FeeItem] of the results, and the built-in functions.  An integer
    carries its mathematical value; [in_range]
    says that it fits its type. *)
Inductive Value : Type :=
  | VNil
  | VBool (b : bool)
  | VDecimal (d : Decimal)
  | VFloat64 (f : spec_float)
  | VFloat32 (f : spec_float)
  | VInt (n : Z)
  | VInt8 (n : Z)
  | VInt16 (n : Z)
  | VInt32 (n : Z)
  | VInt64 (n : Z)
  | VUint (n : Z)
  | VUint8 (n : Z)
  | VUint16 (n : Z)
  | VUint32 (n : Z)
  | VUint64 (n : Z)
  | VString (s : string)
  | VFeeItem (fi : FeeItem)
  | VStrings (l : list string)
  | VSlice (l : list Value)
  | VFeeItems (l : list FeeItem)
  | VFunc (b : Builtin).

(** The integer values of each integer type. *)
Definition in_range (v : Value) : Prop :=
  match v with
  | VInt n | VInt64 n => - 2 ^ 63 <= n < 2 ^ 63
  | VInt8 n => - 2 ^ 7 <= n < 2 ^ 7
  | VInt16 n => - 2 ^ 15 <= n < 2 ^ 15
  | VInt32 n => - 2 ^ 31 <= n < 2 ^ 31
  | VUint n | VUint64 n => 0 <= n < 2 ^ 64
  | VUint8 n => 0 <= n < 2 ^ 8
  | VUint16 n => 0 <= n < 2 ^ 16
  | VUint32 n => 0 <= n < 2 ^ 32
  | _ => True
  end.

(** ** expression.go: numeric coercion *)

Section Coercion.

Context `{Conversions}.

(** newFeeItem creates a new fee item; amount can be float64, int,
    string, or decimal.Decimal.  The panic of [decimal.NewFromFloat]
    leaves it without a fee item. *)
Definition newFeeItem (amount : Value) (currency : string)
    : error + FeeItem :=
  let d : error + Decimal :=
    match amount with
    | VDecimal v => inr v
    | VFloat64 v => NewFromFloat v
    | VInt v => inr (NewFromInt (to_int64 v))
    | VInt64 v => inr (NewFromInt v)
    | VString v =>
        match NewFromString v with
        | Some d => inr d
        | None => inr Zero
        end
    | _ => inr Zero
    end in
  match d with
  | inl err => inl err
  | inr d => inr {| Amount := d; Currency := currency |}
  end.

(** toDecimal converts various numeric types to decimal.Decimal, or
    panics where the conversion of a float does. *)
Definition toDecimal (v : Value) : error + Decimal :=
  match v with
  | VDecimal val => inr val
  | VFloat64 val => NewFromFloat val
  | VFloat32 val => NewFromFloat32 val
  | VInt val => inr (NewFromInt (to_int64 val))
  | VInt8 val => inr (NewFromInt (to_int64 val))
  | VInt16 val => inr (NewFromInt (to_int64 val))
  | VInt32 val => inr (NewFromInt (to_int64 val))
  | VInt64 val => inr (NewFromInt val)
  | VUint val => inr (NewFromInt (to_int64 val))
  | VUint8 val => inr (NewFromInt (to_int64 val))
  | VUint16 val => inr (NewFromInt (to_int64 val))
  | VUint32 val => inr (NewFromInt (to_int64 val))
  | VUint64 val => inr (NewFromInt (to_int64 val))
  | VString val =>
      match NewFromString val with
      | Some d => inr d
      | None => inr Zero
      end
  | _ => inr Zero
  end.

End Coercion.

(** ** Go's [strings] and [regexp], as far as expression.go uses them *)

Module strings.

Local Open Scope char_scope.

Definition bytes (s : string) : list ascii := list_ascii_of_string s.
Definition ofBytes (l : list ascii) : string := string_of_list_ascii l.

Definition code (c : ascii) : N := N_of_ascii c.

Definition isPrefix (p s : list ascii) : bool :=
  bool_decide (take (length p) s = p).

(** The UTF-8 encodings of the runes [unicode.IsSpace] accepts: the six
    ASCII ones, U+0085, U+00A0, U+1680, U+2000 to U+200A, U+2028,
    U+2029, U+202F, U+205F and U+3000. *)
Definition spaceRunes : list (list ascii) :=
  [ ["009"]; ["010"]; ["011"]; ["012"]; ["013"]; [" "];
    ["194"; "133"]; ["194"; "160"];
    ["225"; "154"; "128"];
    ["226"; "128"; "128"]; ["226"; "128"; "129"]; ["226"; "128"; "130"];
    ["226"; "128"; "131"]; ["226"; "128"; "132"]; ["226"; "128"; "133"];
    ["226"; "128"; "134"]; ["226"; "128"; "135"]; ["226"; "128"; "136"];
    ["226"; "128"; "137"]; ["226"; "128"; "138"];
    ["226"; "128"; "168"]; ["226"; "128"; "169"]; ["226"; "128"; "175"];
    ["226"; "129"; "159"];
    ["227"; "128"; "128"] ].

(** Number of bytes of the white-space rune [s] starts with, 0 when it
    starts with none. *)
Definition spaceWidth (runes : list (list ascii)) (s : list ascii) : nat :=
  match List.find (fun r => isPrefix r s) runes with
  | Some r => length r
  | None => O
  end.

Fixpoint trimLeftWith (runes : list (list ascii)) (fuel : nat)
    (s : list ascii) : list ascii :=
  match fuel with
  | O => s
  | S fuel' =>
      match spaceWidth runes s with
      | O => s
      | w => trimLeftWith runes fuel' (drop w s)
      end
  end.

Definition trimLeft (s : list ascii) : list ascii :=
  trimLeftWith spaceRunes (length s) s.

(** Trailing white space is found by decoding the last rune: the same
    encodings, read from the end. *)
Definition trimRight (s : list ascii) : list ascii :=
  rev (trimLeftWith (map (@rev ascii) spaceRunes) (length s) (rev s)).

(** [strings.TrimSpace] *)
Definition TrimSpace (s : string) : string :=
  ofBytes (trimRight (trimLeft (bytes s))).

(** [strings.Contains] *)
Fixpoint containsBytes (sub s : list ascii) : bool :=
  isPrefix sub s ||
  match s with
  | [] => false
  | _ :: s' => containsBytes sub s'
  end.

Definition Contains (s substr : string) : bool :=
  containsBytes (bytes substr) (bytes s).

(** [strings.Split] for a non-empty separator: the pieces between the
    non-overlapping occurrences of [sep], leftmost first.  [skip] counts
    the bytes of a separator still to be passed over, [cur] is the
    piece being read, reversed. *)
Fixpoint splitBytes (sep : list ascii) (skip : nat) (cur s : list ascii)
    : list (list ascii) :=
  match s with
  | [] => [rev cur]
  | c :: s' =>
      match skip with
      | S k => splitBytes sep k cur s'
      | O =>
          if isPrefix sep s
          then rev cur :: splitBytes sep (length sep - 1) [] s'
          else splitBytes sep O (c :: cur) s'
      end
  end.

Definition Split (s sep : string) : list string :=
  map ofBytes (splitBytes (bytes sep) O [] (bytes s)).

(** [strings.Join] *)
Definition Join (elems : list string) (sep : string) : string :=
  String.concat sep elems.

End strings.

Module regexp.

Import strings.
Local Open Scope char_scope.
Local Open Scope N_scope.

(** [\w]: [0-9A-Za-z_] *)
Definition isWord (c : ascii) : bool :=
  let n := code c in
  ((48 <=? n) && (n <=? 57)) || ((65 <=? n) && (n <=? 90))
  || ((97 <=? n) && (n <=? 122)) || (n =? 95).

(** [[a-zA-Z_]] *)
Definition isIdentStart (c : ascii) : bool :=
  let n := code c in
  ((65 <=? n) && (n <=? 90)) || ((97 <=? n) && (n <=? 122)) || (n =? 95).

(** [\s]: tab, newline, form feed, carriage return, space *)
Definition isSpace (c : ascii) : bool :=
  let n := code c in
  (n =? 9) || (n =? 10) || (n =? 12) || (n =? 13) || (n =? 32).

Definition isNewline (c : ascii) : bool := code c =? 10.

Fixpoint span (p : ascii -> bool) (s : list ascii)
    : list ascii * list ascii :=
  match s with
  | c :: s' =>
      if p c then let '(a, b) := span p s' in (c :: a, b) else ([], s)
  | [] => ([], [])
  end.

(** The text [preprocessExpression] compiles its pattern from. *)
Definition assignmentPattern : string :=
  "\b([a-zA-Z_][a-zA-Z0-9_]*)\s*=\s*(.+)$".

(** [assignmentPattern] matched at the head of [s], which is known to
    begin a word with an identifier byte.

    The identifier group must take the whole run of word bytes (what
    follows it has to be white space or [=]); the first [\s*] must take
    all the white space before [=]; [.] excludes the newline and [$] is
    the end of the text, so [(.+)] takes everything that is left, and
    there is a match only when that holds no newline.  The second [\s*]
    is greedy: the group starts after the white space, unless nothing
    follows it, when the last white-space byte is given back to [.+]. *)
Definition matchAssignmentAt (s : list ascii)
    : option (list ascii * list ascii) :=
  let '(ident, r1) := span isWord s in
  let '(_, r2) := span isSpace r1 in
  match r2 with
  | "=" :: r3 =>
      let '(ws, rest) := span isSpace r3 in
      match rest with
      | [] =>
          match last ws with
          | Some c => if isNewline c then None else Some (ident, [c])
          | None => None
          end
      | _ => if existsb isNewline rest then None else Some (ident, rest)
      end
  | _ => None
  end.

(** The leftmost match: the first position at a word boundary ([\b]:
    the previous byte is no word byte, this one is) holding an
    identifier start from which the pattern matches.  [prevWord] tells
    whether the byte before [s] is a word byte. *)
Fixpoint findAssignment (prevWord : bool) (s : list ascii)
    : option (list ascii * list ascii) :=
  match s with
  | [] => None
  | c :: s' =>
      if negb prevWord && isIdentStart c
      then match matchAssignmentAt s with
           | Some m => Some m
           | None => findAssignment (isWord c) s'
           end
      else findAssignment (isWord c) s'
  end.

(** [assignmentPattern.FindStringSubmatch(part)]: the two groups of the
    leftmost match, [None] for Go's nil. *)
Definition FindStringSubmatch (part : string) : option (string * string) :=
  match findAssignment false (bytes part) with
  | Some (g1, g2) => Some (ofBytes g1, ofBytes g2)
  | None => None
  end.

End regexp.

(** ** expression.go: the rule preprocessor *)

(** The double quote, for the places where the source writes one inside a
    string. *)
Definition dq : string := String "034"%char "".

(** [fmt.Sprintf(`Set("%s", %s)`, varName, valueExpr)] *)
Definition sprintfSet (varName valueExpr : string) : string :=
  "Set(" +:+ dq +:+ varName +:+ dq +:+ ", " +:+ valueExpr +:+ ")".

(** One turn of the loop over the parts: what it appends to
    [processedParts]. *)
Definition processPart (part : string) : list string :=
  let part := strings.TrimSpace part in
  if decide (part = "") then []
  else
    match regexp.FindStringSubmatch part with
    | Some (varName, m2) =>
        let valueExpr := strings.TrimSpace m2 in
        [sprintfSet varName valueExpr]
    | None => [part]
    end.

(** preprocessExpression converts assignment syntax (var = value) to Set
    calls. *)
Definition preprocessExpression (exprStr : string) : string :=
  if decide (exprStr = "") then exprStr
  else
    let parts := strings.Split exprStr ";" in
    let processedParts := flat_map processPart parts in
    match processedParts with
    | [] => exprStr
    | [p] => p
    | _ => strings.Join processedParts "; "
    end.

(** ** expr-lang/expr *)

(** The expression language is an external capability:
    [expr.Compile(text, expr.Env(env))] gives a program or fails, and
    [expr.Run(program, env)] gives a value or fails.  While it runs, a
    program may call the functions of its environment; the only one with
    an effect is [Set], so a run is described by the [Set] calls it made,
    in order, and by its outcome.  Failures carry the library's message. *)
Module expr.

Record RunResult : Type := {
  calls : list (string * Value);
  output : string + Value
}.

Class Evaluator : Type := {
  Program : Type;
  Compile : string -> gmap string Value -> string + Program;
  Run : Program -> gmap string Value -> RunResult
}.

End expr.

(** ** types.go *)

(** Each struct is a record in a module of its name, so that the fields
    keep theirs.  The mutex [mu] of [Context] has no counterpart: calls
    are modelled one at a time. *)
Module Log.
Record t : Type := {
  Rule : string;
  Vars : gmap string Value;
  FeeItems : list FeeItem
}.
End Log.

Module Context.

(** Context holds variables and fee items during calculation. *)
Record t : Type := {
  ctxJson : gmap string Value;
  Vars : gmap string Value;
  FeeItems : list FeeItem;
  Logs : list Log.t;
  enableLog : bool;
  lastExecutedRule : Z
}.

(** Copy creates a deep copy of the context; the literal it returns
    names neither the snapshot nor the logging switch. *)
Definition Copy (c : t) : t :=
  {| ctxJson := ∅; Vars := Vars c; FeeItems := FeeItems c; Logs := Logs c;
     enableLog := false; lastExecutedRule := lastExecutedRule c |}.

(** SetVar sets a variable in the context. *)
Definition SetVar (key : string) (value : Value) (c : t) : t :=
  {| ctxJson := ctxJson c; Vars := <[key := value]> (Vars c);
     FeeItems := FeeItems c; Logs := Logs c; enableLog := enableLog c;
     lastExecutedRule := lastExecutedRule c |}.

(** GetVar gets a variable from the context. *)
Definition GetVar (key : string) (c : t) : option Value := Vars c !! key.

(** addFeeItem adds a fee item to the context. *)
Definition addFeeItem (item : FeeItem) (c : t) : t :=
  {| ctxJson := ctxJson c; Vars := Vars c;
     FeeItems := FeeItems c ++ [item]; Logs := Logs c;
     enableLog := enableLog c; lastExecutedRule := lastExecutedRule c |}.

(** addLog adds a log entry to the context. *)
Definition addLog (log : Log.t) (c : t) : t :=
  {| ctxJson := ctxJson c; Vars := Vars c; FeeItems := FeeItems c;
     Logs := Logs c ++ [log]; enableLog := enableLog c;
     lastExecutedRule := lastExecutedRule c |}.

Definition setLastExecutedRule (i : Z) (c : t) : t :=
  {| ctxJson := ctxJson c; Vars := Vars c; FeeItems := FeeItems c;
     Logs := Logs c; enableLog := enableLog c; lastExecutedRule := i |}.

Definition setEnableLog (b : bool) (c : t) : t :=
  {| ctxJson := ctxJson c; Vars := Vars c; FeeItems := FeeItems c;
     Logs := Logs c; enableLog := b;
     lastExecutedRule := lastExecutedRule c |}.

End Context.

Module RuleResult.
(** RuleResult represents the result of executing a fee rule. *)
Record t : Type := {
  FeeItems : list FeeItem;
  Context : option Context.t
}.
End RuleResult.

Module FeeEngine.
(** FeeEngine executes fee calculation rules; [ctx] is a pointer that
    may be nil. *)
Record t : Type := {
  ctx : option Context.t;
  rules : list string
}.
End FeeEngine.

Module ExecuteResult.
(** ExecuteResult represents the result of executing rules; [Context]
    is the engine's context as it is when the call returns. *)
Record t : Type := {
  ProcessedRules : Z;
  Logs : list Log.t;
  FeeItems : list FeeItem;
  Summary : list FeeItem;
  Context : Context.t
}.
End ExecuteResult.

(** ** expression.go: the rule evaluator *)

(** What the closures of [executeExpression] share and mutate: the
    environment handed to the evaluator and the tracked updates. *)
Record evalState : Type := {
  env : gmap string Value;
  contextUpdates : gmap string Value
}.

(** Computations over that state which may return an error. *)
Definition M (A : Type) : Type := evalState -> error + (A * evalState).

Definition ret {A} (a : A) : M A := fun st => inr (a, st).

Definition bind {A B} (m : M A) (f : A -> M B) : M B :=
  fun st =>
    match m st with
    | inl err => inl err
    | inr (a, st') => f a st'
    end.

Definition fail {A} (err : error) : M A := fun _ => inl err.

Declare Scope eval_scope.
Delimit Scope eval_scope with eval.
Notation "'let*' x ':=' m 'in' k" := (bind m (fun x => k))
  (at level 10, x name, m at level 100, k at level 200) : eval_scope.

(** [for _, x := range xs { acc = body(acc, x) }] with early return on
    error. *)
Fixpoint forEach {A B} (body : B -> A -> M B) (xs : list A) (acc : B)
    : M B :=
  match xs with
  | [] => ret acc
  | x :: xs' => bind (body acc x) (forEach body xs')
  end.

(** The [Set] closure: [contextUpdates[key] = value; env[key] = value]. *)
Definition callSet (st : evalState) (kv : string * Value) : evalState :=
  {| env := <[kv.1 := kv.2]> (env st);
     contextUpdates := <[kv.1 := kv.2]> (contextUpdates st) |}.

(** extractExpressionStrings extracts expression strings from output;
    Go's nil slice is the empty list.  [allStrings] is the loop over a
    [[]interface{}]. *)
Fixpoint allStrings (arr : list Value) (expressions : list string)
    : list string :=
  match arr with
  | [] => expressions
  | VString str :: arr' => allStrings arr' (expressions ++ [str])
  | _ :: _ => []
  end.

Definition extractExpressionStrings (output : Value) : list string :=
  match output with
  | VStrings arr => arr
  | VSlice arr =>
      if (0 <? length arr)%nat then allStrings arr [] else []
  | _ => []
  end.

(** extractFeeItems extracts FeeItems from output and appends to the
    slice. *)
Definition extractFeeItems (output : Value) (feeItems : list FeeItem)
    : list FeeItem :=
  match output with
  | VNil => feeItems
  | VFeeItem fi => feeItems ++ [fi]
  | VSlice arr =>
      foldl (fun acc item =>
               match item with
               | VFeeItem fi => acc ++ [fi]
               | _ => acc
               end) feeItems arr
  | _ => feeItems
  end.

(** The end of [executeExpression]: the result for the fee items and the
    tracked updates a rule ends with, nil when there are neither. *)
Definition packResult (feeItems : list FeeItem)
    (updates : gmap string Value) : option RuleResult.t :=
  let resultContext :=
    if (0 <? size updates)%nat
    then Some {| Context.ctxJson := ∅;
                 Context.Vars := updates;
                 Context.FeeItems := [];
                 Context.Logs := [];
                 Context.enableLog := false;
                 Context.lastExecutedRule := 0 |}
    else None in
  match feeItems, resultContext with
  | [], None => None
  | _, _ => Some {| RuleResult.FeeItems := feeItems;
                    RuleResult.Context := resultContext |}
  end.

Section Evaluation.

Context `{expr.Evaluator}.

Local Open Scope eval_scope.

(** executeSingleExpression executes a single expression string. *)
Definition executeSingleExpression (exprStr : string) : M Value :=
  fun st =>
    if decide (exprStr = "") then inr (VNil, st)
    else
      match expr.Compile exprStr (env st) with
      | inl err => inl (errCompile err)
      | inr program =>
          let r := expr.Run program (env st) in
          match expr.output r with
          | inl err => inl (errExecute err)
          | inr output => inr (output, foldl callSet st (expr.calls r))
          end
      end.

(** The environment [executeExpression] starts from: the variables of
    the context, then the helper functions. *)
Definition initialEnv (vars : gmap string Value) : gmap string Value :=
  <["Neg" := VFunc BNeg]>
    (<["Div" := VFunc BDiv]>
      (<["Mul" := VFunc BMul]>
        (<["Sub" := VFunc BSub]>
          (<["Add" := VFunc BAdd]>
            (<["Set" := VFunc BSet]>
              (<["$" := VFunc BNewFeeItem]> vars)))))).

(** The statements of a preprocessed rule: all but the last are run for
    their effect, the last one gives the output. *)
Definition runStatements (preprocessed : string) : M Value :=
  if strings.Contains preprocessed "; " then
    let parts := strings.Split preprocessed "; " in
    let* _ :=
      forEach (fun (_ : unit) p =>
                 let part := strings.TrimSpace p in
                 if decide (part = "") then ret tt
                 else let* _ := executeSingleExpression part in ret tt)
        (removelast parts) tt in
    executeSingleExpression (strings.TrimSpace (List.last parts ""))
  else executeSingleExpression preprocessed.

(** What the output of the last statement contributes to
    [result.FeeItems]. *)
Definition collectFeeItems (output : Value) : M (list FeeItem) :=
  let expressionsToProcess := extractExpressionStrings output in
  if (0 <? length expressionsToProcess)%nat then
    forEach (fun feeItems subExpr =>
               let* subOutput := executeSingleExpression subExpr in
               ret (extractFeeItems subOutput feeItems))
      expressionsToProcess []
  else
    match output with
    | VNil => ret []
    | _ => ret (extractFeeItems output [])
    end.

(** executeExpression executes an expression and returns rule result;
    [None] is Go's nil result. *)
Definition executeExpression (exprStr : string) (ctx : Context.t)
    : error + option RuleResult.t :=
  if decide (exprStr = "") then inr None
  else
    let preprocessed := preprocessExpression exprStr in
    let st := {| env := initialEnv (Context.Vars ctx);
                 contextUpdates := ∅ |} in
    match (let* output := runStatements preprocessed in
           collectFeeItems output) st with
    | inl err => inl err
    | inr (feeItems, st') =>
        inr (packResult feeItems (contextUpdates st'))
    end.

End Evaluation.

(** ** fee_engine.go *)

(** [len(s)] of a slice, as an [int]. *)
Definition len {A} (s : list A) : Z := Z.of_nat (length s).

(** [s[i]] for an [int] index; [None] where Go panics. *)
Definition index {A} (s : list A) (i : Z) : option A :=
  if i <? 0 then None else s !! Z.to_nat i.

(** The accumulation loop of [summarizeFeeItems]:
    [currencyMap[item.Currency] = currencyMap[item.Currency].Add(item.Amount)],
    a missing key reading as the zero value. *)
Definition accumulate (currencyMap : gmap string Decimal) (item : FeeItem)
    : gmap string Decimal :=
  <[Currency item :=
      Add (default zeroValue (currencyMap !! Currency item)) (Amount item)]>
    currencyMap.

Definition currencyMap (items : list FeeItem) : gmap string Decimal :=
  foldl accumulate ∅ items.

(** summarizeFeeItems summarizes fee items by currency.  Go ranges over
    the map in an unspecified order; the order of [map_to_list] stands
    for it and nothing below depends on it. *)
Definition summarizeFeeItems (items : list FeeItem) : list FeeItem :=
  (fun ca => {| Amount := ca.2; Currency := ca.1 |})
    <$> map_to_list (currencyMap items).

(** New creates a new instance of FeeEngine with the given context; a
    nil context is replaced by an empty one.  The field [ctxJson] is not
    written: it stays what the context holds, nil in the literal. *)
Definition New (ctx : option Context.t) : FeeEngine.t :=
  let ctx :=
    match ctx with
    | Some c => c
    | None =>
        {| Context.ctxJson := ∅;
           Context.Vars := ∅;
           Context.FeeItems := [];
           Context.Logs := [];
           Context.enableLog := false;
           Context.lastExecutedRule := 0 |}
    end in
  {| FeeEngine.ctx := Some ctx; FeeEngine.rules := [] |}.

(** [EnableLog]; on a nil context Go panics, the engine is left as it
    is. *)
Definition EnableLog (e : FeeEngine.t) : FeeEngine.t :=
  {| FeeEngine.ctx := Context.setEnableLog true <$> FeeEngine.ctx e;
     FeeEngine.rules := FeeEngine.rules e |}.

(** AddRule adds one or more fee rules to the engine. *)
Definition AddRule (rules : list string) (e : FeeEngine.t) : FeeEngine.t :=
  {| FeeEngine.ctx := FeeEngine.ctx e;
     FeeEngine.rules := FeeEngine.rules e ++ rules |}.

(** GetRules returns all rules. *)
Definition GetRules (e : FeeEngine.t) : list string := FeeEngine.rules e.

(** GetRuleCount returns the number of rules. *)
Definition GetRuleCount (e : FeeEngine.t) : Z := len (FeeEngine.rules e).

(** GetContext returns the context. *)
Definition GetContext (e : FeeEngine.t) : option Context.t := FeeEngine.ctx e.

(** buildExecuteResult builds an ExecuteResult from current context
    state. *)
Definition buildExecuteResult (c : Context.t) (processed : Z)
    : ExecuteResult.t :=
  {| ExecuteResult.ProcessedRules := processed;
     ExecuteResult.FeeItems := Context.FeeItems c;
     ExecuteResult.Summary := summarizeFeeItems (Context.FeeItems c);
     ExecuteResult.Context := c;
     ExecuteResult.Logs := Context.Logs c |}.

(** "Process rule result: add fee items and update context": the fee
    items of this rule and the context after the merge. *)
Definition processRuleResult (result : option RuleResult.t) (c : Context.t)
    : list FeeItem * Context.t :=
  match result with
  | None => ([], c)
  | Some result =>
      let '(ruleFeeItems, c) :=
        if (0 <? length (RuleResult.FeeItems result))%nat
        then (RuleResult.FeeItems result,
              foldl (fun c item => Context.addFeeItem item c) c
                (RuleResult.FeeItems result))
        else ([], c) in
      let c :=
        match RuleResult.Context result with
        | Some rc => map_fold Context.SetVar c (Context.Vars rc)
        | None => c
        end in
      (ruleFeeItems, c)
  end.

(** "Log entry (only if logging is enabled)" *)
Definition logRule (rule : string) (ruleFeeItems : list FeeItem)
    (c : Context.t) : Context.t :=
  if Context.enableLog c
  then Context.addLog {| Log.Rule := rule;
                         Log.Vars := Context.Vars c;
                         Log.FeeItems := ruleFeeItems |} c
  else c.

Section Engine.

Context `{expr.Evaluator}.

(** executeRule executes a single rule and returns the result. *)
Definition executeRule (rule : string) (c : Context.t)
    : error + option RuleResult.t :=
  executeExpression rule c.

(** One turn of the loop of [ExecuteN], for the rule at index [i]. *)
Definition executeAt (i : Z) (rule : string) (c : Context.t)
    : error + Context.t :=
  match executeRule rule c with
  | inl err => inl (errRuleAt i err)
  | inr result =>
      let '(ruleFeeItems, c) := processRuleResult result c in
      inr (logRule rule ruleFeeItems c)
  end.

(** [for i := startIndex; i < endIndex; i++ { .. processed++ }], [n]
    being the number of turns left.  The context is returned as the
    loop leaves it, with the error that stopped it or the count. *)
Fixpoint executeLoop (rules : list string) (n : nat) (i processed : Z)
    (c : Context.t) : Context.t * (error + Z) :=
  match n with
  | O => (c, inr processed)
  | S n' =>
      match index rules i with
      | None => (c, inl (panic "index out of range"))
      | Some rule =>
          match executeAt i rule c with
          | inl err => (c, inl err)
          | inr c' => executeLoop rules n' (i + 1) (processed + 1) c'
          end
      end
  end.

(** ExecuteN executes N rules starting from the last executed
    position.  The engine is returned as the call leaves it. *)
Definition ExecuteN (e : FeeEngine.t) (count : Z)
    : FeeEngine.t * (error + ExecuteResult.t) :=
  match FeeEngine.ctx e with
  | None => (e, inl errContextNil)
  | Some c =>
      if count <=? 0 then (e, inl errCountNotPositive)
      else
        let rules := FeeEngine.rules e in
        let startIndex := Context.lastExecutedRule c in
        if startIndex >=? len rules
        then (e, inr (buildExecuteResult c 0))
        else
          let endIndex := to_int64 (startIndex + count) in
          let endIndex :=
            if endIndex >? len rules then len rules else endIndex in
          match executeLoop rules (Z.to_nat (endIndex - startIndex))
                  startIndex 0 c with
          | (c', inl err) =>
              ({| FeeEngine.ctx := Some c'; FeeEngine.rules := rules |},
               inl err)
          | (c', inr processed) =>
              let c'' := Context.setLastExecutedRule endIndex c' in
              ({| FeeEngine.ctx := Some c''; FeeEngine.rules := rules |},
               inr (buildExecuteResult c'' processed))
          end
  end.

(** Execute executes all remaining rules from the current position. *)
Definition Execute (e : FeeEngine.t)
    : FeeEngine.t * (error + ExecuteResult.t) :=
  match FeeEngine.ctx e with
  | None => (e, inl (panic "nil pointer dereference"))
  | Some c =>
      let remaining :=
        to_int64 (len (FeeEngine.rules e) - Context.lastExecutedRule c) in
      ExecuteN e remaining
  end.

End Engine.

(** Modelled from the spec: [Reset], which the tests and the demo call
    and the source does not hold.  It "restores the Variable Environment
    to its originally-constructed snapshot, clears effects and logs, sets
    cursor to 0; the Rule Queue itself is preserved unchanged".  The
    snapshot is read where types.go declares a field for it, [ctxJson];
    logging stays as it was set. *)
Definition Reset (e : FeeEngine.t) : FeeEngine.t :=
  {| FeeEngine.ctx :=
       (fun c =>
          {| Context.ctxJson := Context.ctxJson c;
             Context.Vars := Context.ctxJson c;
             Context.FeeItems := [];
             Context.Logs := [];
             Context.enableLog := Context.enableLog c;
             Context.lastExecutedRule := 0 |}) <$> FeeEngine.ctx e;
     FeeEngine.rules := FeeEngine.rules e |}.

(** Modelled from the spec: the engine's [SetVar], "direct writes to the
    live Variable Environment, usable between run calls"; the source
    holds the method of the context it goes through. *)
Definition SetVar (key : string) (value : Value) (e : FeeEngine.t)
    : FeeEngine.t :=
  {| FeeEngine.ctx := Context.SetVar key value <$> FeeEngine.ctx e;
     FeeEngine.rules := FeeEngine.rules e |}.

(** ** Callers *)

(** The calls a caller can make on an engine between its construction and
    a reset. *)
Inductive Op : Type :=
  | OpAddRule (rules : list string)
  | OpEnableLog
  | OpSetVar (key : string) (value : Value)
  | OpExecuteN (count : Z)
  | OpExecute
  | OpReset.

Section Callers.

Context `{expr.Evaluator}.

Definition applyOp (e : FeeEngine.t) (op : Op) : FeeEngine.t :=
  match op with
  | OpAddRule rules => AddRule rules e
  | OpEnableLog => EnableLog e
  | OpSetVar key value => SetVar key value e
  | OpExecuteN count => (ExecuteN e count).1
  | OpExecute => (Execute e).1
  | OpReset => Reset e
  end.

Definition applyOps (e : FeeEngine.t) (ops : list Op) : FeeEngine.t :=
  foldl applyOp e ops.

End Callers.

(** ** What a rule commits *)

(** The fee items and the variable updates of a rule result, nothing for
    Go's nil. *)
Definition resultFeeItems (result : option RuleResult.t) : list FeeItem :=
  match result with
  | Some r => RuleResult.FeeItems r
  | None => []
  end.

Definition resultUpdates (result : option RuleResult.t)
    : gmap string Value :=
  match result with
  | Some r =>
      match RuleResult.Context r with
      | Some rc => Context.Vars rc
      | None => ∅
      end
  | None => ∅
  end.

(** The context after a rule result is merged into it: the fee items
    appended, the updated variables written over the old ones. *)
Definition merged (result : option RuleResult.t) (c : Context.t)
    : Context.t :=
  {| Context.ctxJson := Context.ctxJson c;
     Context.Vars := resultUpdates result ∪ Context.Vars c;
     Context.FeeItems := Context.FeeItems c ++ resultFeeItems result;
     Context.Logs := Context.Logs c;
     Context.enableLog := Context.enableLog c;
     Context.lastExecutedRule := Context.lastExecutedRule c |}.

(** The engine has a context whose field [ctxJson] holds [snapshot]. *)
Definition keeps (snapshot : gmap string Value) (e : FeeEngine.t) : Prop :=
  exists c, FeeEngine.ctx e = Some c /\ Context.ctxJson c = snapshot.

(** ** Exact totals in the spec's words *)

(** The amounts of the effects bearing a currency, in order; currency
    codes are compared as strings, byte for byte. *)
Definition amountsOf (currency : string) (items : list FeeItem)
    : list Decimal :=
  Amount <$> filter (fun item => Currency item = currency) items.

(** The sum of a list of rationals. *)
Definition sumQ (l : list Q) : Q := foldr Qplus 0%Q l.

(** ** The evaluation protocol in the spec's words *)

Definition isString (v : Value) : bool :=
  match v with VString _ => true | _ => false end.

Definition stringsOf (arr : list Value) : list string :=
  omap (fun v => match v with VString s => Some s | _ => None end) arr.

(** The Monetary Effects that stand directly in an ordered sequence, in
    order. *)
Definition feeItemsIn (arr : list Value) : list FeeItem :=
  omap (fun v => match v with VFeeItem fi => Some fi | _ => None end) arr.

(** The Monetary Effects a value holds: itself, or those of a sequence. *)
Definition effectsOf (v : Value) : list FeeItem :=
  match v with
  | VFeeItem fi => [fi]
  | VSlice arr => feeItemsIn arr
  | _ => []
  end.

Section Protocol.

Context `{expr.Evaluator}.

Local Open Scope eval_scope.

(** "Treat each string as a further expression to evaluate immediately
    (not queued, not recursively preprocessed) against the same
    environment; collect any Monetary Effects each produces, in
    order." *)
Fixpoint evalEach (exprs : list string) : M (list FeeItem) :=
  match exprs with
  | [] => ret []
  | e :: exprs' =>
      let* v := executeSingleExpression e in
      let* rest := evalEach exprs' in
      ret (effectsOf v ++ rest)
  end.

(** The evaluation protocol for the return value of a rule's result
    expression: a single Monetary Effect is recorded; the strings of a
    sequence of strings are evaluated; the Monetary Effects of any other
    sequence the expression language builds are recorded in order;
    anything else, a [[]FeeItem] included, records nothing. *)
Definition protocolEffects (output : Value) : M (list FeeItem) :=
  match output with
  | VFeeItem fi => ret [fi]
  | VStrings exprs => evalEach exprs
  | VSlice arr =>
      if forallb isString arr then evalEach (stringsOf arr)
      else ret (feeItemsIn arr)
  | _ => ret []
  end.

End Protocol.

(** ** Instances for the examples *)

Module Demo.

Import strings.

(** Plain decimal literals: digits with at most one point. *)
Fixpoint parseDigits (s : list ascii) (acc : Z) (frac : option Z)
    (seen : bool) : option Decimal :=
  match s with
  | [] =>
      if seen
      then Some {| value := acc; exp := - default 0 frac |}
      else None
  | c :: s' =>
      if bool_decide (c = "."%char) then
        match frac with
        | None => parseDigits s' acc (Some 0) seen
        | Some _ => None
        end
      else
        match Ascii.is_nat c with
        | Some d =>
            parseDigits s' (10 * acc + Z.of_nat d) (Z.succ <$> frac) true
        | None => None
        end
  end.

Definition parseLiteral (s : string) : option Decimal :=
  match bytes s with
  | "-"%char :: s' =>
      (fun d => {| value := - value d; exp := exp d |})
        <$> parseDigits s' 0 None false
  | s' => parseDigits s' 0 None false
  end.

(** The exact value of a finite binary float. *)
Definition exactFloat (f : spec_float) : Decimal :=
  match f with
  | S754_finite s m e =>
      let v := if s then Z.neg m else Z.pos m in
      if e <? 0 then {| value := v * 5 ^ (- e); exp := e |}
      else {| value := v * 2 ^ e; exp := 0 |}
  | _ => zeroValue
  end.

Definition conversions : Conversions :=
  {| finiteFloat64 := exactFloat;
     finiteFloat32 := exactFloat;
     NewFromString := parseLiteral |}.

(** An evaluator given by a finite table: the expressions it knows,
    each with the run it makes; any other text fails to compile.  The
    table below holds the run of each rule on the contexts it is used
    with: [fees] names a variable that holds a [[]FeeItem]. *)
Definition tableEvaluator (table : gmap string expr.RunResult)
    : expr.Evaluator :=
  {| expr.Program := expr.RunResult;
     expr.Compile := fun text _ =>
       match table !! text with
       | Some r => inr r
       | None => inl "unexpected token"
       end;
     expr.Run := fun program _ => program |}.

Definition returns (v : Value) : expr.RunResult :=
  {| expr.calls := []; expr.output := inr v |}.

(** [$(10, "USD")] *)
Definition emit10USD : string := "$(10, " +:+ dq +:+ "USD" +:+ dq +:+ ")".

(** [$(200, "EUR")] *)
Definition emit200EUR : string := "$(200, " +:+ dq +:+ "EUR" +:+ dq +:+ ")".

(** [Set("x", 1)] *)
Definition setX1 : string := "Set(" +:+ dq +:+ "x" +:+ dq +:+ ", 1)".

(** A quote inside a string literal of the expression language. *)
Definition esc : string := "\" +:+ dq.

(** The array of the two expressions above, each as a string. *)
Definition twoExpressions : string :=
  "[" +:+ dq +:+ "$(10, " +:+ esc +:+ "USD" +:+ esc +:+ ")" +:+ dq +:+ ", "
      +:+ dq +:+ "$(200, " +:+ esc +:+ "EUR" +:+ esc +:+ ")" +:+ dq +:+ "]".

Definition invalid : string := "invalid syntax here!!!".

(** What [$(10, "USD")] and [$(200, "EUR")] build. *)
Definition usd10 : FeeItem :=
  {| Amount := NewFromInt 10; Currency := "USD" |}.

Definition eur200 : FeeItem :=
  {| Amount := NewFromInt 200; Currency := "EUR" |}.

Definition table : gmap string expr.RunResult :=
  list_to_map
    [ (emit10USD, returns (VFeeItem usd10));
      (emit200EUR, returns (VFeeItem eur200));
      ("nil", returns VNil);
      (setX1, {| expr.calls := [("x", VInt 1)]; expr.output := inr VNil |});
      (twoExpressions, returns (VSlice [VString emit10USD;
                                        VString emit200EUR]));
      ("fees", returns (VFeeItems [usd10; eur200])) ].

Definition evaluator : expr.Evaluator := tableEvaluator table.

Definition executeN := @ExecuteN evaluator.
Definition execute := @Execute evaluator.

(** An engine over the empty context with the given rules queued. *)
Definition engine (rules : list string) : FeeEngine.t :=
  AddRule rules (New None).

(** The context of an engine that has one. *)
Definition contextOf (e : FeeEngine.t) : Context.t :=
  default {| Context.ctxJson := ∅; Context.Vars := ∅;
             Context.FeeItems := []; Context.Logs := [];
             Context.enableLog := false; Context.lastExecutedRule := 0 |}
    (FeeEngine.ctx e).

(** [&Context{Vars: map[string]interface{}{key: value}}] *)
Definition withVar (key : string) (value : Value) : Context.t :=
  {| Context.ctxJson := ∅; Context.Vars := {[ key := value ]};
     Context.FeeItems := []; Context.Logs := [];
     Context.enableLog := false; Context.lastExecutedRule := 0 |}.

(** The engine built on a context, once the rule [Set("x", 1)] has been
    queued and run. *)
Definition afterSetX1 (c : Context.t) : FeeEngine.t :=
  (execute (AddRule [setX1] (New (Some c)))).1.

(** Three rules that each emit 10 USD, all of them run. *)
Definition exhausted : FeeEngine.t :=
  (executeN (engine [emit10USD; emit10USD; emit10USD]) 3).1.

(** One empty rule, with logging enabled. *)
Definition emptyRule : FeeEngine.t := EnableLog (engine [""]).

(** Five rules of every kind, none run yet. *)
Definition fiveRules : FeeEngine.t :=
  EnableLog (engine [emit10USD; setX1; ""; twoExpressions; emit200EUR]).

(** A rule that emits and a rule that does not compile. *)
Definition failing : FeeEngine.t := engine [emit10USD; invalid].

End Demo.

(** ** More of expression.go and fee_engine.go *)

Section Helpers.

Context `{Conversions}.

(** The closures [executeExpression] installs under ["Add"], ["Sub"] and
    ["Neg"]; the operands are coerced from left to right, and a panic of
    the coercion is the closure's. *)
Definition envAdd (a b : Value) : error + Decimal :=
  match toDecimal a with
  | inl err => inl err
  | inr da =>
      match toDecimal b with
      | inl err => inl err
      | inr db => inr (Add da db)
      end
  end.

Definition envSub (a b : Value) : error + Decimal :=
  match toDecimal a with
  | inl err => inl err
  | inr da =>
      match toDecimal b with
      | inl err => inl err
      | inr db => inr (Sub da db)
      end
  end.

Definition envNeg (a : Value) : error + Decimal :=
  match toDecimal a with
  | inl err => inl err
  | inr da => inr (Neg da)
  end.

End Helpers.

(** The helper function [executeExpression] installs under a name. *)
Definition builtinOf (name : string) : option Builtin :=
  if decide (name = "$") then Some BNewFeeItem
  else if decide (name = "Set") then Some BSet
  else if decide (name = "Add") then Some BAdd
  else if decide (name = "Sub") then Some BSub
  else if decide (name = "Mul") then Some BMul
  else if decide (name = "Div") then Some BDiv
  else if decide (name = "Neg") then Some BNeg
  else None.

(** What the loop of [preprocessExpression] appends for a part that is
    no assignment. *)
Definition keepPart (part : string) : list string :=
  let part := strings.TrimSpace part in
  if decide (part = "") then [] else [part].

(** [preprocessExpression] without its rewriting: the statements of the
    rule, trimmed, the empty ones dropped, joined again. *)
Definition joinStatements (exprStr : string) : string :=
  if decide (exprStr = "") then exprStr
  else
    match flat_map keepPart (strings.Split exprStr ";") with
    | [] => exprStr
    | [p] => p
    | parts => strings.Join parts "; "
    end.

(** Two contexts that differ at most in their logs and logging switch. *)
Definition sameButLogs (c1 c2 : Context.t) : Prop :=
  Context.ctxJson c1 = Context.ctxJson c2
  /\ Context.Vars c1 = Context.Vars c2
  /\ Context.FeeItems c1 = Context.FeeItems c2
  /\ Context.lastExecutedRule c1 = Context.lastExecutedRule c2.

(** The total the summary holds for a currency, the zero value when it
    holds none. *)
Definition totalOf (currency : string) (items : list FeeItem) : Decimal :=
  default zeroValue (currencyMap items !! currency).

(** * Properties *)

(** ** Numeric coercion *)

Lemma to_int64_id (v : Z) : is_int64 v -> to_int64 v = v.
Proof.
  unfold is_int64, min_int64, max_int64, to_int64. intros Hv.
  rewrite Z.mod_small; lia.
Qed.

Section CoercionFacts.

Context `{Conversions}.

(** Integers that fit a signed 64-bit integer come out exactly. *)
Lemma toDecimal_signed_exact (n : Z) :
  is_int64 n ->
  toDecimal (VInt n) = inr (NewFromInt n) /\
  toDecimal (VInt8 n) = inr (NewFromInt n) /\
  toDecimal (VInt16 n) = inr (NewFromInt n) /\
  toDecimal (VInt32 n) = inr (NewFromInt n) /\
  toDecimal (VInt64 n) = inr (NewFromInt n) /\
  toDecimal (VUint n) = inr (NewFromInt n) /\
  toDecimal (VUint8 n) = inr (NewFromInt n) /\
  toDecimal (VUint16 n) = inr (NewFromInt n) /\
  toDecimal (VUint32 n) = inr (NewFromInt n) /\
  toDecimal (VUint64 n) = inr (NewFromInt n).
Proof. intros Hn. cbn. rewrite to_int64_id by done. repeat split. Qed.

(** A string is what the library parses it to, zero when it does not
    parse. *)
Lemma toDecimal_string (s : string) :
  toDecimal (VString s) = inr (default Zero (NewFromString s)).
Proof. cbn. by destruct (NewFromString s). Qed.

(** A float coerces unless it is NaN or an infinity, where the
    coercion panics as the library does. *)
Lemma toDecimal_float (f : spec_float) :
  match notFinite f with
  | Some what =>
      toDecimal (VFloat64 f)
      = inl (panic ("Cannot create a Decimal from " +:+ what))
      /\ toDecimal (VFloat32 f)
         = inl (panic ("Cannot create a Decimal from " +:+ what))
  | None =>
      toDecimal (VFloat64 f) = inr (finiteFloat64 f)
      /\ toDecimal (VFloat32 f) = inr (finiteFloat32 f)
  end.
Proof.
  cbn. unfold NewFromFloat, NewFromFloat32. by destruct (notFinite f).
Qed.

(** Values outside the type switch coerce to zero. *)
Lemma toDecimal_unsupported (v : Value) :
  match v with
  | VNil | VBool _ | VFeeItem _ | VStrings _ | VSlice _ | VFeeItems _
  | VFunc _ =>
      toDecimal v = inr Zero
  | _ => True
  end.
Proof. by destruct v. Qed.

(** X20: an unsigned 64-bit integer from [2 ^ 63] on comes out [2 ^ 64]
    too small. *)
Lemma toDecimal_uint64_high (n : Z) :
  2 ^ 63 <= n < 2 ^ 64 ->
  toDecimal (VUint64 n) = inr (NewFromInt (n - 2 ^ 64)) /\
  toDecimal (VUint n) = inr (NewFromInt (n - 2 ^ 64)).
Proof.
  intros Hn. cbn. unfold to_int64.
  assert ((n + 2 ^ 63) mod 2 ^ 64 = n + 2 ^ 63 - 2 ^ 64) as ->.
  { symmetry. apply Z.mod_unique with (q := 1); lia. }
  split; do 2 f_equal; lia.
Qed.

(** C5: the claim is that coercion loses no precision on any integer
    input, unsigned ones of any width included.  At the largest
    [uint64], a value of its type, [toDecimal] converts through
    [int64] and returns the decimal -1. *)
Theorem toDecimal_max_uint64 :
  in_range (VUint64 18446744073709551615) /\
  toDecimal (VUint64 18446744073709551615) = inr (NewFromInt (-1)) /\
  ~ (toQ (NewFromInt (-1)) == inject_Z 18446744073709551615)%Q.
Proof.
  split; [cbn; lia|]. split; [reflexivity|].
  unfold toQ. cbn. intros Heq. discriminate Heq.
Qed.

(** C6 (amended): for an amount of dynamic type decimal, int, int64 or
    string, or a float64 that is neither NaN nor an infinity, and any
    currency, [newFeeItem] gives one fee item, whose amount is the
    canonical coercion [toDecimal] of the amount and whose currency is
    the given one; on a float64 that is NaN or an infinity it panics as
    the coercion does and gives no fee item; for an amount of any other
    dynamic type the fee item has the amount decimal zero. *)
Theorem newFeeItem_amount (amount : Value) (currency : string) :
  match amount with
  | VFloat64 f =>
      match notFinite f with
      | Some what =>
          toDecimal amount
          = inl (panic ("Cannot create a Decimal from " +:+ what))
          /\ newFeeItem amount currency
             = inl (panic ("Cannot create a Decimal from " +:+ what))
      | None =>
          exists d,
            toDecimal amount = inr d
            /\ newFeeItem amount currency
               = inr {| Amount := d; Currency := currency |}
      end
  | VDecimal _ | VInt _ | VInt64 _ | VString _ =>
      exists d,
        toDecimal amount = inr d
        /\ newFeeItem amount currency
           = inr {| Amount := d; Currency := currency |}
  | _ =>
      newFeeItem amount currency
      = inr {| Amount := Zero; Currency := currency |}
  end.
Proof.
  destruct amount as [| |d|f| | | | | | | | | | | |str| | | | |];
    try reflexivity; cbn; eauto.
  - unfold newFeeItem, NewFromFloat. destruct (notFinite f); eauto.
  - unfold newFeeItem. destruct (NewFromString str); eauto.
Qed.

End CoercionFacts.

(** C6 (counterexample): a 32-bit integer is a coercible scalar, its
    canonical coercion is the decimal 5, and the fee item built from it
    has the amount zero. *)
Lemma newFeeItem_int32_is_zero :
  in_range (VInt32 5) /\
  @toDecimal Demo.conversions (VInt32 5) = inr (NewFromInt 5) /\
  @newFeeItem Demo.conversions (VInt32 5) "USD"
  = inr {| Amount := Zero; Currency := "USD" |} /\
  Zero <> NewFromInt 5.
Proof.
  split; [cbn; lia|]. split; [reflexivity|]. split; [reflexivity|].
  discriminate.
Qed.

(** The constructor on the amounts of the rules of the table, and on a
    float that is not a number. *)
Example newFeeItem_examples :
  @newFeeItem Demo.conversions (VInt 10) "USD" = inr Demo.usd10
  /\ @newFeeItem Demo.conversions (VInt 200) "EUR" = inr Demo.eur200
  /\ @newFeeItem Demo.conversions (VFloat64 S754_nan) "USD"
     = inl (panic "Cannot create a Decimal from NaN").
Proof. repeat split. Qed.

(** ** The rule preprocessor *)

(** The examples of the source's comment. *)
Example preprocess_assignment :
  preprocessExpression "amount = 123" = sprintfSet "amount" "123".
Proof. vm_compute. reflexivity. Qed.

Example preprocess_two_assignments :
  preprocessExpression "amount = 123; rate = 0.02"
  = sprintfSet "amount" "123" +:+ "; " +:+ sprintfSet "rate" "0.02".
Proof. vm_compute. reflexivity. Qed.

(** A ternary after an assignment is kept as it is. *)
Example preprocess_ternary :
  preprocessExpression
    "total_fee = total_fee - coupon; coupon > 0 ? $(-coupon, coupon_currency) : nil"
  = sprintfSet "total_fee" "total_fee - coupon"
      +:+ "; coupon > 0 ? $(-coupon, coupon_currency) : nil".
Proof. vm_compute. reflexivity. Qed.

Example preprocess_greater_equal :
  preprocessExpression "a >= b" = "a >= b".
Proof. vm_compute. reflexivity. Qed.

(** The pattern is searched for, not anchored: an assignment that ends a
    statement is rewritten and what stands before it is dropped. *)
Example preprocess_mid_expression :
  preprocessExpression "f(x) + y = 3" = sprintfSet "y" "3".
Proof. vm_compute. reflexivity. Qed.

(** C3: the claim is that a statement whose [=] belongs to a comparison
    such as [==] is never rewritten as an assignment.  The statement
    [a == b] is rewritten to the call [Set("a", = b)]: the pattern takes
    the first [=] of [==] for the assignment sign. *)
Theorem preprocessExpression_equality_test :
  regexp.FindStringSubmatch "a == b" = Some ("a", "= b") /\
  preprocessExpression "a == b" = sprintfSet "a" "= b".
Proof. vm_compute. split; reflexivity. Qed.

(** ** Decimal addition *)

Module decimal_facts.

Lemma pow10_pos (k : Z) : 0 < 10 ^ k \/ k < 0.
Proof.
  destruct (Z_lt_le_dec k 0) as [?|Hk]; [by right|left].
  by apply Z.pow_pos_nonneg.
Qed.

Lemma pow10_add (x y : Z) : 0 <= x -> 0 <= y -> 10 ^ x * 10 ^ y = 10 ^ (x + y).
Proof. intros. by rewrite Z.pow_add_r. Qed.

(** The sum is taken at the smaller exponent, where both coefficients
    are integers: nothing is rounded. *)
Lemma Add_eq (a b : Decimal) :
  Add a b =
  {| value := value a * 10 ^ (exp a - Z.min (exp a) (exp b))
              + value b * 10 ^ (exp b - Z.min (exp a) (exp b));
     exp := Z.min (exp a) (exp b) |}.
Proof.
  unfold Add, RescalePair, rescale.
  destruct (Z.ltb_spec (exp a) (exp b)) as [Hlt|Hge].
  - destruct (Z.eqb_spec (exp b) (exp a)) as [?|_]; [lia|].
    destruct (Z.gtb_spec (exp a) (exp b)) as [?|_]; [lia|].
    cbn. rewrite Z.min_l by lia.
    rewrite Z.sub_diag, Z.mul_1_r.
    by replace (Z.abs (exp a - exp b)) with (exp b - exp a) by lia.
  - destruct (Z.gtb_spec (exp a) (exp b)) as [Hgt|Hle].
    + destruct (Z.eqb_spec (exp a) (exp b)) as [?|_]; [lia|].
      destruct (Z.gtb_spec (exp b) (exp a)) as [?|_]; [lia|].
      cbn. rewrite Z.min_r by lia.
      rewrite Z.sub_diag, Z.mul_1_r.
      by replace (Z.abs (exp b - exp a)) with (exp a - exp b) by lia.
    + assert (exp a = exp b) as Heq by lia.
      rewrite Heq, Z.min_id, Z.sub_diag, !Z.mul_1_r. reflexivity.
Qed.

Lemma Add_comm (a b : Decimal) : Add a b = Add b a.
Proof.
  rewrite !Add_eq, (Z.min_comm (exp b) (exp a)). f_equal. lia.
Qed.

Lemma Add_assoc (a b c : Decimal) : Add (Add a b) c = Add a (Add b c).
Proof.
  rewrite (Add_eq (Add a b) c), (Add_eq a (Add b c)), !Add_eq. cbn.
  assert (Z.min (Z.min (exp a) (exp b)) (exp c)
          = Z.min (exp a) (Z.min (exp b) (exp c))) as Hm by lia.
  rewrite <- Hm. f_equal.
  rewrite !Z.mul_add_distr_r, <- !Z.mul_assoc.
  repeat (rewrite pow10_add by lia).
  rewrite Z.add_assoc.
  f_equal; [f_equal|]; f_equal; f_equal; lia.
Qed.

(** Swapping the last two amounts added to a total. *)
Lemma Add_swap (x a b : Decimal) : Add (Add x a) b = Add (Add x b) a.
Proof. by rewrite !Add_assoc, (Add_comm a b). Qed.

Lemma inject_pow10 (k : Z) : 0 <= k -> (inject_Z (10 ^ k) == 10 ^ k)%Q.
Proof. intros Hk. by rewrite Zpower_Qpower. Qed.

Lemma toQ_scaled (v e m : Z) :
  m <= e -> (inject_Z (v * 10 ^ (e - m)) * 10 ^ m == inject_Z v * 10 ^ e)%Q.
Proof.
  intros Hm. rewrite inject_Z_mult, inject_pow10 by lia.
  rewrite <- Qmult_assoc, <- Qpower_plus by discriminate.
  by replace (e - m + m) with e by lia.
Qed.

(** Addition of decimals is addition of the numbers they stand for. *)
Lemma toQ_Add (a b : Decimal) : (toQ (Add a b) == toQ a + toQ b)%Q.
Proof.
  rewrite Add_eq. unfold toQ. cbn.
  rewrite inject_Z_plus, Qmult_plus_distr_l, !toQ_scaled by lia.
  reflexivity.
Qed.

Lemma toQ_foldl_Add (l : list Decimal) (z : Decimal) :
  (toQ (foldl Add z l) == toQ z + sumQ (toQ <$> l))%Q.
Proof.
  revert z. induction l as [|d l IH]; intros z; cbn.
  - by rewrite Qplus_0_r.
  - rewrite IH, toQ_Add, Qplus_assoc. reflexivity.
Qed.

Lemma toQ_zeroValue : (toQ zeroValue == 0)%Q.
Proof. reflexivity. Qed.

End decimal_facts.

(** ** The aggregator *)

Section Aggregator.

Import decimal_facts.

Lemma accumulate_swap (m : gmap string Decimal) (i1 i2 : FeeItem) :
  accumulate (accumulate m i1) i2 = accumulate (accumulate m i2) i1.
Proof.
  unfold accumulate.
  destruct (decide (Currency i1 = Currency i2)) as [Heq|Hne].
  - rewrite Heq, !lookup_insert_eq, !insert_insert_eq. cbn.
    by rewrite Add_swap.
  - rewrite !lookup_insert_ne by done.
    by rewrite insert_insert_ne.
Qed.

(** A left fold whose steps can be swapped does not see the order of
    the list. *)
Lemma foldl_swap_permutation {A B} (f : B -> A -> B) :
  (forall b x y, f (f b x) y = f (f b y) x) ->
  forall l l', l ≡ₚ l' -> forall b, foldl f b l = foldl f b l'.
Proof.
  intros Hf l l' Hperm.
  induction Hperm as [|x l l' _ IH|x y l|l1 l2 l3 _ IH1 _ IH2]; intros b.
  - reflexivity.
  - cbn. apply IH.
  - cbn. by rewrite Hf.
  - by rewrite IH1.
Qed.

Lemma currencyMap_permutation (items items' : list FeeItem) :
  items ≡ₚ items' -> currencyMap items = currencyMap items'.
Proof.
  intros Hperm.
  by apply (foldl_swap_permutation accumulate accumulate_swap).
Qed.

Lemma amountsOf_cons (c : string) (item : FeeItem) (items : list FeeItem) :
  amountsOf c (item :: items) =
  if decide (Currency item = c) then Amount item :: amountsOf c items
  else amountsOf c items.
Proof.
  unfold amountsOf. rewrite filter_cons. by case_decide.
Qed.

(** What the loop leaves under a currency: the amounts of that currency
    added, in order, onto what was there. *)
Lemma foldl_accumulate_lookup (items : list FeeItem) (c : string) :
  forall m : gmap string Decimal,
    foldl accumulate m items !! c =
    match amountsOf c items with
    | [] => m !! c
    | amounts => Some (foldl Add (default zeroValue (m !! c)) amounts)
    end.
Proof.
  induction items as [|item items IH]; intros m; [done|].
  cbn [foldl]. rewrite IH, amountsOf_cons. unfold accumulate.
  case_decide as Hc.
  - subst c. rewrite lookup_insert_eq. cbn.
    by destruct (amountsOf (Currency item) items).
  - by rewrite lookup_insert_ne.
Qed.

Lemma currencyMap_lookup (items : list FeeItem) (c : string) :
  currencyMap items !! c =
  match amountsOf c items with
  | [] => None
  | amounts => Some (foldl Add zeroValue amounts)
  end.
Proof.
  unfold currencyMap. rewrite foldl_accumulate_lookup.
  rewrite lookup_empty. reflexivity.
Qed.

(** The summary holds one entry for each currency of the map. *)
Lemma summarizeFeeItems_elem (items : list FeeItem) (fi : FeeItem) :
  fi ∈ summarizeFeeItems items <->
  currencyMap items !! Currency fi = Some (Amount fi).
Proof.
  unfold summarizeFeeItems. rewrite list_elem_of_fmap. split.
  - intros ([c a] & -> & Hin). cbn. by apply elem_of_map_to_list in Hin.
  - intros Hlook. exists (Currency fi, Amount fi). split.
    + by destruct fi.
    + by apply elem_of_map_to_list.
Qed.

(** X21: no currency stands twice in a summary. *)
Lemma summarizeFeeItems_NoDup (items : list FeeItem) :
  NoDup (Currency <$> summarizeFeeItems items).
Proof.
  unfold summarizeFeeItems. rewrite <- list_fmap_compose.
  apply NoDup_fst_map_to_list.
Qed.

(** C8: for every effect list and currency, the aggregator's total for
    the currency is the sum of the amounts of the effects bearing that
    currency code (compared as exact strings), taken in decimal
    arithmetic with no rounding: the rational it stands for is the sum
    of the rationals of the amounts; a currency no effect bears has no
    entry.  Effect lists that are permutations of each other have the
    same totals. *)
Theorem currencyMap_exact_order_independent
    (items items' : list FeeItem) (c : string) :
  items ≡ₚ items' ->
  match currencyMap items !! c with
  | Some total =>
      amountsOf c items <> []
      /\ total = foldl Add zeroValue (amountsOf c items)
      /\ (toQ total == sumQ (toQ <$> amountsOf c items))%Q
  | None => amountsOf c items = []
  end
  /\ (forall fi, fi ∈ summarizeFeeItems items <->
                 currencyMap items !! Currency fi = Some (Amount fi))
  /\ currencyMap items' = currencyMap items
  /\ summarizeFeeItems items' = summarizeFeeItems items.
Proof.
  intros Hperm. split; [|split; [|split]].
  - rewrite currencyMap_lookup.
    destruct (amountsOf c items) as [|a l] eqn:Ha; [done|].
    split; [done|]. split; [done|].
    rewrite toQ_foldl_Add, toQ_zeroValue, Qplus_0_l. reflexivity.
  - apply summarizeFeeItems_elem.
  - symmetry. by apply currencyMap_permutation.
  - unfold summarizeFeeItems.
    by rewrite (currencyMap_permutation items items').
Qed.

End Aggregator.

(** Currency codes that differ in case are different currencies. *)
Example currencyMap_case_sensitive :
  currencyMap [ {| Amount := NewFromInt 1; Currency := "USD" |};
                {| Amount := NewFromInt 2; Currency := "usd" |} ]
  = {[ "USD" := NewFromInt 1; "usd" := NewFromInt 2 ]}.
Proof. vm_compute. reflexivity. Qed.

(** Amounts of different exponents add without loss: 0.1 + 0.02 + 3. *)
Example currencyMap_mixed_exponents :
  currencyMap [ {| Amount := {| value := 1; exp := -1 |}; Currency := "USD" |};
                {| Amount := {| value := 2; exp := -2 |}; Currency := "USD" |};
                {| Amount := NewFromInt 3; Currency := "USD" |} ]
  !! "USD" = Some {| value := 312; exp := -2 |}.
Proof. vm_compute. reflexivity. Qed.

(** C8 (witness): two USD effects around a EUR one, and the same effects
    with the EUR one first. *)
Lemma currencyMap_exact_order_independent_witness :
  [Demo.usd10; Demo.eur200; Demo.usd10] ≡ₚ [Demo.eur200; Demo.usd10; Demo.usd10]
  /\ currencyMap [Demo.usd10; Demo.eur200; Demo.usd10] !! "USD"
     = Some {| value := 20; exp := 0 |}
  /\ currencyMap [Demo.eur200; Demo.usd10; Demo.usd10]
     = currencyMap [Demo.usd10; Demo.eur200; Demo.usd10].
Proof.
  assert ([Demo.usd10; Demo.eur200; Demo.usd10]
          ≡ₚ [Demo.eur200; Demo.usd10; Demo.usd10]) as Hperm
    by apply Permutation_swap.
  split; [exact Hperm|].
  destruct (currencyMap_exact_order_independent _ _ "USD" Hperm)
    as (_ & _ & Heq & _).
  split; [vm_compute; reflexivity | exact Heq].
Defined.

(** ** The engine: what one rule does to the context *)

Lemma foldl_addFeeItem (items : list FeeItem) (c : Context.t) :
  foldl (fun c item => Context.addFeeItem item c) c items =
  {| Context.ctxJson := Context.ctxJson c;
     Context.Vars := Context.Vars c;
     Context.FeeItems := Context.FeeItems c ++ items;
     Context.Logs := Context.Logs c;
     Context.enableLog := Context.enableLog c;
     Context.lastExecutedRule := Context.lastExecutedRule c |}.
Proof.
  revert c. induction items as [|item items IH]; intros c; cbn.
  - rewrite app_nil_r. by destruct c.
  - rewrite IH. cbn. by rewrite <- app_assoc.
Qed.

Lemma map_fold_SetVar (updates : gmap string Value) (c : Context.t) :
  map_fold Context.SetVar c updates =
  {| Context.ctxJson := Context.ctxJson c;
     Context.Vars := updates ∪ Context.Vars c;
     Context.FeeItems := Context.FeeItems c;
     Context.Logs := Context.Logs c;
     Context.enableLog := Context.enableLog c;
     Context.lastExecutedRule := Context.lastExecutedRule c |}.
Proof.
  revert updates.
  apply (map_fold_weak_ind
           (fun r m => r = {| Context.ctxJson := Context.ctxJson c;
                              Context.Vars := m ∪ Context.Vars c;
                              Context.FeeItems := Context.FeeItems c;
                              Context.Logs := Context.Logs c;
                              Context.enableLog := Context.enableLog c;
                              Context.lastExecutedRule :=
                                Context.lastExecutedRule c |})).
  - rewrite (left_id_L ∅ (∪)). by destruct c.
  - intros k v m r _ ->. unfold Context.SetVar. cbn.
    by rewrite insert_union_l.
Qed.

Lemma processRuleResult_eq (result : option RuleResult.t) (c : Context.t) :
  processRuleResult result c = (resultFeeItems result, merged result c).
Proof.
  unfold processRuleResult, merged.
  destruct result as [[items rc]|]; cbn.
  - destruct items as [|item items]; cbn.
    + destruct rc as [rc|]; cbn.
      * rewrite map_fold_SetVar. cbn. by rewrite app_nil_r.
      * rewrite (left_id_L ∅ (∪)), app_nil_r. by destruct c.
    + rewrite (foldl_addFeeItem items). cbn.
      destruct rc as [rc|]; cbn.
      * rewrite map_fold_SetVar. cbn. by rewrite <- app_assoc.
      * by rewrite (left_id_L ∅ (∪)), <- app_assoc.
  - rewrite (left_id_L ∅ (∪)), app_nil_r. by destruct c.
Qed.

Section EngineFacts.

Context `{expr.Evaluator}.

(** The evaluation of a rule reads the variables of the context and
    nothing else. *)
Lemma executeExpression_vars (rule : string) (c1 c2 : Context.t) :
  Context.Vars c1 = Context.Vars c2 ->
  executeExpression rule c1 = executeExpression rule c2.
Proof. intros Hv. unfold executeExpression. by rewrite Hv. Qed.

Lemma executeAt_eq (i : Z) (rule : string) (c : Context.t) :
  executeAt i rule c =
  match executeExpression rule c with
  | inl err => inl (errRuleAt i err)
  | inr result =>
      inr (logRule rule (resultFeeItems result) (merged result c))
  end.
Proof.
  unfold executeAt, executeRule.
  destruct (executeExpression rule c) as [err|result]; [done|].
  by rewrite processRuleResult_eq.
Qed.

(** A rule leaves the snapshot, the logging switch and the cursor of
    the context as they are. *)
Lemma executeAt_frame (i : Z) (rule : string) (c c' : Context.t) :
  executeAt i rule c = inr c' ->
  Context.ctxJson c' = Context.ctxJson c
  /\ Context.enableLog c' = Context.enableLog c
  /\ Context.lastExecutedRule c' = Context.lastExecutedRule c.
Proof.
  rewrite executeAt_eq.
  destruct (executeExpression rule c) as [err|result]; [done|].
  intros [= <-]. unfold logRule.
  by destruct c as [? ? ? ? [] ?].
Qed.

(** The cursor of the context plays no part in a rule. *)
Lemma executeAt_setLastExecutedRule (k i : Z) (rule : string)
    (c : Context.t) :
  executeAt i rule (Context.setLastExecutedRule k c) =
  match executeAt i rule c with
  | inl err => inl err
  | inr c' => inr (Context.setLastExecutedRule k c')
  end.
Proof.
  rewrite !executeAt_eq.
  rewrite (executeExpression_vars rule (Context.setLastExecutedRule k c) c)
    by done.
  destruct (executeExpression rule c) as [err|result]; [done|].
  unfold logRule. by destruct c as [? ? ? ? [] ?].
Qed.

Lemma executeLoop_frame (rules : list string) (n : nat) :
  forall (i p : Z) (c : Context.t),
    Context.ctxJson (executeLoop rules n i p c).1 = Context.ctxJson c
    /\ Context.enableLog (executeLoop rules n i p c).1
       = Context.enableLog c
    /\ Context.lastExecutedRule (executeLoop rules n i p c).1
       = Context.lastExecutedRule c.
Proof.
  induction n as [|n IH]; intros i p c; cbn; [done|].
  destruct (index rules i) as [rule|]; [|done].
  destruct (executeAt i rule c) as [err|c1] eqn:Hat; [done|].
  destruct (executeAt_frame _ _ _ _ Hat) as (<- & <- & <-). apply IH.
Qed.

Lemma executeLoop_setLastExecutedRule (k : Z) (rules : list string)
    (n : nat) :
  forall (i p : Z) (c : Context.t),
    executeLoop rules n i p (Context.setLastExecutedRule k c) =
    (Context.setLastExecutedRule k (executeLoop rules n i p c).1,
     (executeLoop rules n i p c).2).
Proof.
  induction n as [|n IH]; intros i p c; cbn; [done|].
  destruct (index rules i) as [rule|]; [|done].
  rewrite executeAt_setLastExecutedRule.
  destruct (executeAt i rule c) as [err|c1]; [done|]. apply IH.
Qed.

(** A loop that succeeds counts its turns. *)
Lemma executeLoop_processed (rules : list string) (n : nat) :
  forall (i p p' : Z) (c : Context.t),
    (executeLoop rules n i p c).2 = inr p' -> p' = p + Z.of_nat n.
Proof.
  induction n as [|n IH]; intros i p p' c; cbn.
  - intros [= <-]. lia.
  - destruct (index rules i) as [rule|]; [|done].
    destruct (executeAt i rule c) as [err|c1]; [done|].
    intros Hl. apply IH in Hl. lia.
Qed.

(** A loop of [n + m] turns is a loop of [n] turns followed, when it
    succeeds, by a loop of [m] turns from where it stopped. *)
Lemma executeLoop_add (rules : list string) (n m : nat) :
  forall (i p : Z) (c : Context.t),
    executeLoop rules (n + m) i p c =
    match executeLoop rules n i p c with
    | (c', inl err) => (c', inl err)
    | (c', inr p') => executeLoop rules m (i + Z.of_nat n) p' c'
    end.
Proof.
  induction n as [|n IH]; intros i p c.
  - cbn. by rewrite Z.add_0_r.
  - cbn [Nat.add executeLoop].
    destruct (index rules i) as [rule|]; [|done].
    destruct (executeAt i rule c) as [err|c1]; [done|].
    rewrite IH. by replace (i + 1 + Z.of_nat n) with (i + Z.of_nat (S n)) by lia.
Qed.

(** A loop that fails names the index it failed at, which lies in its
    range, and the rules before it have all been run. *)
Lemma executeLoop_error (rules : list string) (n : nat) :
  forall (i p : Z) (c c' : Context.t) (j : Z) (cause : error),
    executeLoop rules n i p c = (c', inl (errRuleAt j cause)) ->
    i <= j < i + Z.of_nat n
    /\ (executeLoop rules (Z.to_nat (j - i)) i p c).1 = c'
    /\ exists rule,
         index rules j = Some rule
         /\ executeExpression rule c' = inl cause.
Proof.
  induction n as [|n IH]; intros i p c c' j cause; cbn; [done|].
  destruct (index rules i) as [rule|] eqn:Hrule; [|done].
  destruct (executeAt i rule c) as [err|c1] eqn:Hat.
  - intros [= <- ->]. rewrite executeAt_eq in Hat.
    destruct (executeExpression rule c) as [err'|result] eqn:Hex; [|done].
    injection Hat as <- <-.
    split; [lia|]. rewrite Z.sub_diag. cbn. split; [done|]. eauto.
  - intros Hl. destruct (IH _ _ _ _ _ _ Hl) as (Hj & Hpre & Hex).
    split; [lia|]. split; [|done].
    replace (Z.to_nat (j - i)) with (S (Z.to_nat (j - (i + 1)))) by lia.
    cbn. by rewrite Hrule, Hat.
Qed.

End EngineFacts.

(** ** The engine: calls *)

Lemma merged_None (c : Context.t) : merged None c = c.
Proof.
  unfold merged. cbn. rewrite (left_id_L ∅ (∪)), app_nil_r. by destruct c.
Qed.

Section Calls.

Context `{expr.Evaluator}.

(** Starting the count elsewhere shifts it. *)
Lemma executeLoop_count (rules : list string) (n : nat) :
  forall (i p : Z) (c : Context.t),
    executeLoop rules n i p c =
    match executeLoop rules n i 0 c with
    | (c', inl err) => (c', inl err)
    | (c', inr q) => (c', inr (p + q))
    end.
Proof.
  induction n as [|n IH]; intros i p c; cbn.
  - by rewrite Z.add_0_r.
  - destruct (index rules i) as [rule|]; [|done].
    destruct (executeAt i rule c) as [err|c1]; [done|].
    rewrite (IH (i + 1) (p + 1)), (IH (i + 1) (0 + 1)).
    destruct (executeLoop rules n (i + 1) 0 c1) as [c' [err|q]]; [done|].
    do 2 f_equal. lia.
Qed.

(** [ExecuteN] on an engine with a context, a positive count that does
    not overflow the cursor, and rules left to run. *)
Lemma ExecuteN_pending (e : FeeEngine.t) (c : Context.t) (count : Z) :
  FeeEngine.ctx e = Some c ->
  0 < count ->
  0 <= Context.lastExecutedRule c < len (FeeEngine.rules e) ->
  Context.lastExecutedRule c + count <= max_int64 ->
  ExecuteN e count =
  let rules := FeeEngine.rules e in
  let startIndex := Context.lastExecutedRule c in
  let endIndex := Z.min (startIndex + count) (len rules) in
  match executeLoop rules (Z.to_nat (endIndex - startIndex))
          startIndex 0 c with
  | (c', inl err) =>
      ({| FeeEngine.ctx := Some c'; FeeEngine.rules := rules |}, inl err)
  | (c', inr processed) =>
      let c'' := Context.setLastExecutedRule endIndex c' in
      ({| FeeEngine.ctx := Some c''; FeeEngine.rules := rules |},
       inr (buildExecuteResult c'' processed))
  end.
Proof.
  intros Hctx Hcount Hstart Hmax. unfold ExecuteN. rewrite Hctx.
  destruct (Z.leb_spec count 0) as [?|_]; [lia|].
  destruct (Z.geb_spec (Context.lastExecutedRule c)
              (len (FeeEngine.rules e))) as [?|_]; [lia|].
  rewrite to_int64_id
    by (unfold is_int64, min_int64, max_int64 in *; lia).
  cbn zeta.
  destruct (Z.gtb_spec (Context.lastExecutedRule c + count)
              (len (FeeEngine.rules e))) as [Hgt|Hle].
  - by rewrite Z.min_r by lia.
  - by rewrite Z.min_l by lia.
Qed.

(** [ExecuteN] on an engine whose rules have all been run. *)
Lemma ExecuteN_exhausted (e : FeeEngine.t) (c : Context.t) (count : Z) :
  FeeEngine.ctx e = Some c ->
  0 < count ->
  len (FeeEngine.rules e) <= Context.lastExecutedRule c ->
  ExecuteN e count = (e, inr (buildExecuteResult c 0)).
Proof.
  intros Hctx Hcount Hlen. unfold ExecuteN. rewrite Hctx.
  destruct (Z.leb_spec count 0) as [?|_]; [lia|].
  by destruct (Z.geb_spec (Context.lastExecutedRule c)
                 (len (FeeEngine.rules e))) as [_|?]; [|lia].
Qed.

(** X5: a call to [ExecuteN] that fails on a rule: the index it names lies
    from the cursor on, the rule there fails with the cause on the context
    the rules before it have left, that context is the one the engine
    keeps, and the cursor is where the call found it. *)
Lemma ExecuteN_rule_error (e e' : FeeEngine.t) (count j : Z)
    (cause : error) :
  ExecuteN e count = (e', inl (errRuleAt j cause)) ->
  exists c c' rule,
    FeeEngine.ctx e = Some c /\ FeeEngine.ctx e' = Some c'
    /\ FeeEngine.rules e' = FeeEngine.rules e
    /\ Context.lastExecutedRule c <= j
    /\ c' = (executeLoop (FeeEngine.rules e)
               (Z.to_nat (j - Context.lastExecutedRule c))
               (Context.lastExecutedRule c) 0 c).1
    /\ index (FeeEngine.rules e) j = Some rule
    /\ executeExpression rule c' = inl cause
    /\ Context.lastExecutedRule c' = Context.lastExecutedRule c.
Proof.
  unfold ExecuteN. destruct (FeeEngine.ctx e) as [c|] eqn:Hctx; [|done].
  destruct (count <=? 0); [done|].
  destruct (Context.lastExecutedRule c >=? len (FeeEngine.rules e)); [done|].
  cbn zeta.
  match goal with
  | |- context [executeLoop ?r ?n ?i ?p ?c] =>
      pose proof (executeLoop_frame r n i p c) as (_ & _ & Hcur);
      pose proof (executeLoop_error r n i p c) as Herr;
      destruct (executeLoop r n i p c) as [c' [err|processed]]
  end; [|done].
  intros [= <- ->].
  destruct (Herr c' j cause eq_refl) as (Hj & Hpre & rule & Hrule & Hex).
  exists c, c', rule. cbn in *. repeat split; (done || lia).
Qed.

(** C4: on an engine with a context, [ExecuteN] with a count that is
    not positive fails with the invalid-argument error; [Execute] with
    nothing left to run (an empty queue, or a cursor at its end)
    computes such a count and fails with the same error; and [ExecuteN]
    with a positive count on a cursor at the end of the queue succeeds
    with zero processed rules, the effects of the context and their
    summary, and leaves the engine as it is. *)
Theorem ExecuteN_count_or_exhausted (e : FeeEngine.t) (c : Context.t)
    (count : Z) :
  FeeEngine.ctx e = Some c ->
  is_int64 (Context.lastExecutedRule c) ->
  (count <= 0 -> ExecuteN e count = (e, inl errCountNotPositive))
  /\ (len (FeeEngine.rules e) <= Context.lastExecutedRule c ->
      Execute e = (e, inl errCountNotPositive))
  /\ (0 < count ->
      len (FeeEngine.rules e) <= Context.lastExecutedRule c ->
      exists r,
        ExecuteN e count = (e, inr r)
        /\ ExecuteResult.ProcessedRules r = 0
        /\ ExecuteResult.FeeItems r = Context.FeeItems c
        /\ ExecuteResult.Summary r = summarizeFeeItems (Context.FeeItems c)
        /\ ExecuteResult.Logs r = Context.Logs c
        /\ ExecuteResult.Context r = c).
Proof.
  intros Hctx Hint.
  assert (forall n, n <= 0 -> ExecuteN e n = (e, inl errCountNotPositive))
    as Hneg.
  { intros n Hn. unfold ExecuteN. rewrite Hctx.
    by destruct (Z.leb_spec n 0) as [_|?]; [|lia]. }
  split; [exact (Hneg count)|]. split.
  - intros Hlen. unfold Execute. rewrite Hctx. apply Hneg.
    assert (0 <= len (FeeEngine.rules e)) by (unfold len; lia).
    rewrite to_int64_id
      by (unfold is_int64, min_int64, max_int64 in *; lia).
    lia.
  - intros Hcount Hlen. exists (buildExecuteResult c 0).
    by rewrite (ExecuteN_exhausted e c count).
Qed.

(** C10: when the rule under the cursor is the empty string, running it
    succeeds: the rule counts as processed, the cursor moves past it,
    the effects and the variables stay as they are, and with logging
    enabled one entry is appended, with the empty rule text, the
    variables and no effects.  In any call, the turn of the loop for an
    empty rule does the same and cannot fail. *)
Theorem ExecuteN_empty_rule (e : FeeEngine.t) (c : Context.t) :
  FeeEngine.ctx e = Some c ->
  0 <= Context.lastExecutedRule c ->
  len (FeeEngine.rules e) <= max_int64 ->
  FeeEngine.rules e !! Z.to_nat (Context.lastExecutedRule c) = Some "" ->
  (forall i c0, executeAt i "" c0 = inr (logRule "" [] c0))
  /\ exists c' r,
       ExecuteN e 1 = ({| FeeEngine.ctx := Some c';
                          FeeEngine.rules := FeeEngine.rules e |}, inr r)
       /\ ExecuteResult.ProcessedRules r = 1
       /\ ExecuteResult.Context r = c'
       /\ Context.lastExecutedRule c' = Context.lastExecutedRule c + 1
       /\ Context.FeeItems c' = Context.FeeItems c
       /\ Context.Vars c' = Context.Vars c
       /\ Context.Logs c' =
          if Context.enableLog c
          then Context.Logs c ++ [{| Log.Rule := "";
                                     Log.Vars := Context.Vars c;
                                     Log.FeeItems := [] |}]
          else Context.Logs c.
Proof.
  intros Hctx Hcur Hmax Hrule.
  assert (forall i c0, executeAt i "" c0 = inr (logRule "" [] c0)) as Hat.
  { intros i c0. rewrite executeAt_eq.
    change (executeExpression "" c0)
      with (inr None : error + option RuleResult.t).
    cbn [resultFeeItems]. by rewrite merged_None. }
  split; [exact Hat|].
  assert (Context.lastExecutedRule c < len (FeeEngine.rules e)) as Hlt.
  { apply lookup_lt_Some in Hrule. unfold len. lia. }
  rewrite (ExecuteN_pending e c 1) by (done || lia). cbn zeta.
  rewrite Z.min_l by lia.
  replace (Z.to_nat (Context.lastExecutedRule c + 1
                     - Context.lastExecutedRule c)) with 1%nat by lia.
  cbn [executeLoop]. unfold index.
  destruct (Z.ltb_spec (Context.lastExecutedRule c) 0) as [?|_]; [lia|].
  rewrite Hrule, Hat. eexists _, _. split; [reflexivity|].
  unfold logRule. by destruct c as [? ? ? ? [] ?].
Qed.

(** C7: for positive [a] and [b] whose sum does not overflow the
    cursor, whenever a single call [ExecuteN (a + b)] succeeds (every
    rule it runs evaluates), the call [ExecuteN a] succeeds, the call
    [ExecuteN b] after it succeeds, and the engine they leave - rules
    and context: variables, effects, logs, cursor - is the engine the
    single call leaves; the two calls process between them what the
    single call processes. *)
Theorem ExecuteN_resumable (e e' : FeeEngine.t) (c : Context.t) (a b : Z)
    (r : ExecuteResult.t) :
  FeeEngine.ctx e = Some c ->
  0 < a -> 0 < b ->
  0 <= Context.lastExecutedRule c ->
  Context.lastExecutedRule c + (a + b) <= max_int64 ->
  ExecuteN e (a + b) = (e', inr r) ->
  exists e1 r1 r2,
    ExecuteN e a = (e1, inr r1)
    /\ ExecuteN e1 b = (e', inr r2)
    /\ ExecuteResult.Context r2 = ExecuteResult.Context r
    /\ ExecuteResult.FeeItems r2 = ExecuteResult.FeeItems r
    /\ ExecuteResult.Logs r2 = ExecuteResult.Logs r
    /\ ExecuteResult.Summary r2 = ExecuteResult.Summary r
    /\ ExecuteResult.ProcessedRules r
       = ExecuteResult.ProcessedRules r1 + ExecuteResult.ProcessedRules r2.
Proof.
  intros Hctx Ha Hb Hcur Hmax Hrun.
  destruct (Z_lt_le_dec (Context.lastExecutedRule c)
              (len (FeeEngine.rules e))) as [Hlt|Hge].
  2:{ rewrite (ExecuteN_exhausted e c (a + b)) in Hrun by (done || lia).
      injection Hrun as <- <-.
      exists e, (buildExecuteResult c 0), (buildExecuteResult c 0).
      rewrite !(ExecuteN_exhausted e c) by (done || lia). done. }
  rewrite (ExecuteN_pending e c (a + b)) in Hrun by (done || lia).
  rewrite (ExecuteN_pending e c a) by (done || lia).
  cbn zeta in *.
  remember (FeeEngine.rules e) as rules eqn:Hrules.
  remember (Context.lastExecutedRule c) as start eqn:Hstart.
  remember (Z.min (start + (a + b)) (len rules)) as E eqn:HE.
  remember (Z.min (start + a) (len rules)) as E1 eqn:HE1.
  assert (start <= E1 <= E) as Horder by lia.
  replace (Z.to_nat (E - start))
    with (Z.to_nat (E1 - start) + Z.to_nat (E - E1))%nat in Hrun by lia.
  rewrite executeLoop_add in Hrun.
  replace (start + Z.of_nat (Z.to_nat (E1 - start))) with E1 in Hrun by lia.
  destruct (executeLoop rules (Z.to_nat (E1 - start)) start 0 c)
    as [c1 [err|p1]]; [done|].
  rewrite executeLoop_count in Hrun.
  pose (e1 := {| FeeEngine.ctx := Some (Context.setLastExecutedRule E1 c1);
                 FeeEngine.rules := rules |}).
  exists e1, (buildExecuteResult (Context.setLastExecutedRule E1 c1) p1).
  destruct (Z_lt_le_dec E1 (len rules)) as [Hlt1|Hge1].
  - pose proof (ExecuteN_pending e1 (Context.setLastExecutedRule E1 c1) b)
      as Hb2.
    cbn [e1 FeeEngine.rules FeeEngine.ctx Context.lastExecutedRule
         Context.setLastExecutedRule] in Hb2.
    rewrite Hb2 by (done || lia). clear Hb2. cbn zeta.
    replace (Z.min (E1 + b) (len rules)) with E by lia.
    rewrite executeLoop_setLastExecutedRule.
    destruct (executeLoop rules (Z.to_nat (E - E1)) E1 0 c1)
      as [cf [err|q]]; [done|].
    injection Hrun as <- <-. eexists. split; [reflexivity|].
    split; [reflexivity|]. cbn. done.
  - assert (E = E1) as -> by lia.
    rewrite Z.sub_diag in Hrun. cbn in Hrun. injection Hrun as <- <-.
    pose proof (ExecuteN_exhausted e1 (Context.setLastExecutedRule E1 c1) b)
      as Hb2.
    cbn [e1 FeeEngine.rules FeeEngine.ctx Context.lastExecutedRule
         Context.setLastExecutedRule] in Hb2.
    rewrite Hb2 by (done || lia). clear Hb2.
    eexists. split; [reflexivity|]. split; [reflexivity|].
    cbn. repeat split; lia.
Qed.

(** X19: the other way round: when the two calls succeed, so does the
    single call, and it leaves the engine they leave. *)
Lemma ExecuteN_joined (e e1 e2 : FeeEngine.t) (c : Context.t) (a b : Z)
    (r1 r2 : ExecuteResult.t) :
  FeeEngine.ctx e = Some c ->
  0 < a -> 0 < b ->
  0 <= Context.lastExecutedRule c ->
  Context.lastExecutedRule c + (a + b) <= max_int64 ->
  ExecuteN e a = (e1, inr r1) ->
  ExecuteN e1 b = (e2, inr r2) ->
  exists r,
    ExecuteN e (a + b) = (e2, inr r)
    /\ ExecuteResult.Context r = ExecuteResult.Context r2
    /\ ExecuteResult.ProcessedRules r
       = ExecuteResult.ProcessedRules r1 + ExecuteResult.ProcessedRules r2.
Proof.
  intros Hctx Ha Hb Hcur Hmax Hrun1 Hrun2.
  destruct (Z_lt_le_dec (Context.lastExecutedRule c)
              (len (FeeEngine.rules e))) as [Hlt|Hge].
  2:{ rewrite (ExecuteN_exhausted e c a) in Hrun1 by (done || lia).
      injection Hrun1 as <- <-.
      rewrite (ExecuteN_exhausted e c b) in Hrun2 by (done || lia).
      injection Hrun2 as <- <-.
      rewrite (ExecuteN_exhausted e c (a + b)) by (done || lia).
      by eexists. }
  rewrite (ExecuteN_pending e c a) in Hrun1 by (done || lia).
  rewrite (ExecuteN_pending e c (a + b)) by (done || lia).
  cbn zeta in *.
  remember (FeeEngine.rules e) as rules eqn:Hrules.
  remember (Context.lastExecutedRule c) as start eqn:Hstart.
  remember (Z.min (start + (a + b)) (len rules)) as E eqn:HE.
  remember (Z.min (start + a) (len rules)) as E1 eqn:HE1.
  assert (start <= E1 <= E) as Horder by lia.
  replace (Z.to_nat (E - start))
    with (Z.to_nat (E1 - start) + Z.to_nat (E - E1))%nat by lia.
  rewrite executeLoop_add.
  replace (start + Z.of_nat (Z.to_nat (E1 - start))) with E1 by lia.
  destruct (executeLoop rules (Z.to_nat (E1 - start)) start 0 c)
    as [c1 [err|p1]]; [done|].
  injection Hrun1 as <- <-. rewrite executeLoop_count.
  destruct (Z_lt_le_dec E1 (len rules)) as [Hlt1|Hge1].
  - match type of Hrun2 with
    | ExecuteN ?e1 b = _ =>
        pose proof (ExecuteN_pending e1 (Context.setLastExecutedRule E1 c1) b)
          as Hb2
    end.
    cbn [FeeEngine.rules FeeEngine.ctx Context.lastExecutedRule
         Context.setLastExecutedRule] in Hb2.
    rewrite Hb2 in Hrun2 by (done || lia). clear Hb2. cbn zeta in Hrun2.
    replace (Z.min (E1 + b) (len rules)) with E in Hrun2 by lia.
    rewrite executeLoop_setLastExecutedRule in Hrun2.
    destruct (executeLoop rules (Z.to_nat (E - E1)) E1 0 c1)
      as [cf [err|q]]; [done|].
    injection Hrun2 as <- <-. eexists. split; [reflexivity|]. by cbn.
  - assert (E = E1) as -> by lia. rewrite Z.sub_diag. cbn.
    match type of Hrun2 with
    | ExecuteN ?e1 b = _ =>
        pose proof (ExecuteN_exhausted e1 (Context.setLastExecutedRule E1 c1) b)
          as Hb2
    end.
    cbn [FeeEngine.rules FeeEngine.ctx Context.lastExecutedRule
         Context.setLastExecutedRule] in Hb2.
    rewrite Hb2 in Hrun2 by (done || lia). clear Hb2.
    injection Hrun2 as <- <-. eexists. split; [reflexivity|]. by cbn.
Qed.

End Calls.

(** C4 (witness): three rules that each emit 10 USD, all run; then a call
    for nothing, a call for the rest, and a call for two more rules. *)
Lemma ExecuteN_count_or_exhausted_witness :
  FeeEngine.ctx Demo.exhausted = Some (Demo.contextOf Demo.exhausted)
  /\ is_int64 (Context.lastExecutedRule (Demo.contextOf Demo.exhausted))
  /\ Demo.executeN Demo.exhausted 0 = (Demo.exhausted, inl errCountNotPositive)
  /\ Demo.execute Demo.exhausted = (Demo.exhausted, inl errCountNotPositive)
  /\ exists r,
       Demo.executeN Demo.exhausted 2 = (Demo.exhausted, inr r)
       /\ ExecuteResult.ProcessedRules r = 0
       /\ ExecuteResult.Summary r
          = [{| Amount := {| value := 30; exp := 0 |}; Currency := "USD" |}].
Proof.
  assert (FeeEngine.ctx Demo.exhausted = Some (Demo.contextOf Demo.exhausted))
    as Hctx by (vm_compute; reflexivity).
  assert (is_int64 (Context.lastExecutedRule (Demo.contextOf Demo.exhausted)))
    as Hint by (vm_compute; split; discriminate).
  split; [exact Hctx|]. split; [exact Hint|].
  destruct (@ExecuteN_count_or_exhausted Demo.evaluator _ _ 0 Hctx Hint)
    as (Hzero & Hall & _).
  destruct (@ExecuteN_count_or_exhausted Demo.evaluator _ _ 2 Hctx Hint)
    as (_ & _ & Htwo).
  split; [apply Hzero; lia|].
  split; [apply Hall; vm_compute; discriminate|].
  destruct Htwo as (r & Hr & Hp & _ & Hs & _);
    [lia | vm_compute; discriminate |].
  exists r. split; [exact Hr|]. split; [exact Hp|].
  rewrite Hs. vm_compute. reflexivity.
Defined.

(** C10 (witness): an engine whose only rule is the empty string, with
    logging enabled. *)
Lemma ExecuteN_empty_rule_witness :
  FeeEngine.ctx Demo.emptyRule = Some (Demo.contextOf Demo.emptyRule)
  /\ FeeEngine.rules Demo.emptyRule !! 0%nat = Some ""
  /\ exists c' r,
       Demo.executeN Demo.emptyRule 1
       = ({| FeeEngine.ctx := Some c'; FeeEngine.rules := [""] |}, inr r)
       /\ ExecuteResult.ProcessedRules r = 1
       /\ Context.lastExecutedRule c' = 1
       /\ Context.FeeItems c' = []
       /\ Context.Logs c'
          = [{| Log.Rule := ""; Log.Vars := ∅; Log.FeeItems := [] |}].
Proof.
  assert (FeeEngine.ctx Demo.emptyRule = Some (Demo.contextOf Demo.emptyRule))
    as Hctx by (vm_compute; reflexivity).
  split; [exact Hctx|]. split; [reflexivity|].
  destruct (@ExecuteN_empty_rule Demo.evaluator _ _ Hctx)
    as (_ & c' & r & Hrun & Hp & _ & Hcur & Hfee & _ & Hlog);
    [vm_compute; discriminate | vm_compute; discriminate | reflexivity |].
  exists c', r. split; [exact Hrun|]. split; [exact Hp|].
  split; [exact Hcur|]. split; [exact Hfee|]. exact Hlog.
Defined.

(** C7 (witness): five rules - an emission, an assignment, an empty rule,
    an array of expressions, an emission - run in one call of five, and in
    a call of two followed by a call of three. *)
Lemma ExecuteN_resumable_witness :
  exists e' r e1 r1 r2,
    Demo.executeN Demo.fiveRules (2 + 3) = (e', inr r)
    /\ Demo.executeN Demo.fiveRules 2 = (e1, inr r1)
    /\ Demo.executeN e1 3 = (e', inr r2)
    /\ ExecuteResult.Context r2 = ExecuteResult.Context r
    /\ ExecuteResult.ProcessedRules r = 5
    /\ ExecuteResult.ProcessedRules r1 = 2.
Proof.
  destruct (Demo.executeN Demo.fiveRules (2 + 3)) as [e' [err|r]] eqn:Hrun;
    [vm_compute in Hrun; discriminate Hrun|].
  assert (FeeEngine.ctx Demo.fiveRules = Some (Demo.contextOf Demo.fiveRules))
    as Hctx by (vm_compute; reflexivity).
  destruct (@ExecuteN_resumable Demo.evaluator Demo.fiveRules e'
              (Demo.contextOf Demo.fiveRules) 2 3 r Hctx)
    as (e1 & r1 & r2 & Ha & Hb & Hc & _ & _ & _ & Hp);
    [lia | lia | vm_compute; discriminate | vm_compute; discriminate
     | exact Hrun |].
  exists e', r, e1, r1, r2. split; [reflexivity|].
  split; [exact Ha|]. split; [exact Hb|]. split; [exact Hc|].
  assert (ExecuteResult.ProcessedRules r = 5) as Hr
    by (vm_compute in Hrun; by injection Hrun as <- <-).
  split; [exact Hr|].
  assert (Demo.executeN Demo.fiveRules 2 = (e1, inr r1)) as Ha' by exact Ha.
  vm_compute in Ha'. by injection Ha' as <- <-.
Defined.

(** C1: the claim is that when the rule at index [i] fails, the cursor
    ends at [i], the advance for the rules before it standing.  With a
    rule that emits 10 USD at index 0 and a rule that does not compile at
    index 1, a call for both returns the error of index 1 and keeps the
    effect of rule 0 in the context, and the cursor it leaves is 0, where
    the call started: the loop returns before the one statement that
    moves the cursor. *)
Theorem ExecuteN_failure_leaves_cursor_at_start :
  exists c',
    Demo.executeN Demo.failing 2
    = ({| FeeEngine.ctx := Some c';
          FeeEngine.rules := [Demo.emit10USD; Demo.invalid] |},
       inl (errRuleAt 1 (errCompile "unexpected token")))
    /\ Context.FeeItems c' = [Demo.usd10]
    /\ Context.lastExecutedRule (Demo.contextOf Demo.failing) = 0
    /\ Context.lastExecutedRule c' = 0.
Proof.
  eexists. split; [vm_compute; reflexivity|]. by vm_compute.
Qed.

(** ** Reset *)

Section ResetFacts.

Context `{expr.Evaluator}.

Lemma New_keeps (ctx0 : option Context.t) :
  keeps (from_option Context.ctxJson ∅ ctx0) (New ctx0).
Proof. unfold keeps, New. destruct ctx0; eauto. Qed.

Lemma ExecuteN_keeps (snapshot : gmap string Value) (e : FeeEngine.t)
    (count : Z) :
  keeps snapshot e -> keeps snapshot (ExecuteN e count).1.
Proof.
  intros (c & Hctx & Hsnap). unfold ExecuteN. rewrite Hctx.
  destruct (count <=? 0); [by exists c|].
  destruct (Context.lastExecutedRule c >=? len (FeeEngine.rules e));
    [by exists c|].
  cbn zeta.
  match goal with
  | |- context [executeLoop ?r ?n ?i ?p ?c] =>
      pose proof (executeLoop_frame r n i p c) as (Hjson & _ & _);
      destruct (executeLoop r n i p c) as [c' [err|processed]]
  end; cbn in *; eexists; (split; [reflexivity|]); cbn; congruence.
Qed.

Lemma Execute_keeps (snapshot : gmap string Value) (e : FeeEngine.t) :
  keeps snapshot e -> keeps snapshot (Execute e).1.
Proof.
  intros Hk. pose proof Hk as (c & Hctx & _). unfold Execute.
  rewrite Hctx. by apply ExecuteN_keeps.
Qed.

Lemma applyOp_keeps (snapshot : gmap string Value) (e : FeeEngine.t)
    (op : Op) :
  keeps snapshot e -> keeps snapshot (applyOp e op).
Proof.
  destruct op; cbn [applyOp];
    try (intros (c & Hctx & Hsnap); unfold keeps; cbn; rewrite Hctx; cbn;
         by eauto).
  - apply ExecuteN_keeps.
  - apply Execute_keeps.
Qed.

Lemma applyOps_keeps (snapshot : gmap string Value) (ops : list Op) :
  forall e, keeps snapshot e -> keeps snapshot (applyOps e ops).
Proof.
  unfold applyOps. induction ops as [|op ops IH]; intros e Hk; [done|].
  cbn. by apply IH, applyOp_keeps.
Qed.

End ResetFacts.

(** C2: the claim is that [Reset] brings back the variables the context
    had when the engine was built.  [New] keeps the context it is given
    and writes no snapshot, and a rule overwrites a variable where it
    stands: built on [x = 5] or on [x = 7], the engine is the same once
    the rule [Set("x", 1)] has run, so that no function of the engine
    gives each its own variables back; [Reset], which reads the
    snapshot field, finds none and leaves no variable, also when no rule
    has run. *)
Theorem Reset_finds_no_snapshot :
  Context.Vars (Demo.withVar "x" (VInt 5))
  <> Context.Vars (Demo.withVar "x" (VInt 7))
  /\ Demo.afterSetX1 (Demo.withVar "x" (VInt 5))
     = Demo.afterSetX1 (Demo.withVar "x" (VInt 7))
  /\ (forall reset : FeeEngine.t -> FeeEngine.t,
        ~ (Context.Vars
             <$> FeeEngine.ctx
                   (reset (Demo.afterSetX1 (Demo.withVar "x" (VInt 5))))
           = Some (Context.Vars (Demo.withVar "x" (VInt 5)))
           /\ Context.Vars
                <$> FeeEngine.ctx
                      (reset (Demo.afterSetX1 (Demo.withVar "x" (VInt 7))))
              = Some (Context.Vars (Demo.withVar "x" (VInt 7)))))
  /\ Context.Vars
       <$> FeeEngine.ctx (Reset (Demo.afterSetX1 (Demo.withVar "x" (VInt 5))))
     = Some ∅
  /\ Context.Vars
       <$> FeeEngine.ctx (Reset (New (Some (Demo.withVar "x" (VInt 5)))))
     = Some ∅.
Proof.
  assert (Context.Vars (Demo.withVar "x" (VInt 5))
          <> Context.Vars (Demo.withVar "x" (VInt 7))) as Hne.
  { intros Heq. apply (f_equal (fun m => m !! "x")) in Heq.
    vm_compute in Heq. discriminate Heq. }
  assert (Demo.afterSetX1 (Demo.withVar "x" (VInt 5))
          = Demo.afterSetX1 (Demo.withVar "x" (VInt 7))) as Hsame
    by (vm_compute; reflexivity).
  split; [exact Hne|]. split; [exact Hsame|]. split.
  - intros reset [H5 H7]. rewrite Hsame, H7 in H5.
    injection H5 as H5. by apply Hne.
  - split; vm_compute; reflexivity.
Qed.

(** ** The evaluation protocol *)

Lemma foldl_feeItems (arr : list Value) :
  forall acc : list FeeItem,
    foldl (fun acc item =>
             match item with
             | VFeeItem fi => acc ++ [fi]
             | _ => acc
             end) acc arr
    = acc ++ feeItemsIn arr.
Proof.
  unfold feeItemsIn.
  induction arr as [|item arr IH]; intros acc; cbn.
  - by rewrite app_nil_r.
  - rewrite IH. destruct item; cbn; try done. by rewrite <- app_assoc.
Qed.

Lemma extractFeeItems_effectsOf (output : Value) (feeItems : list FeeItem) :
  extractFeeItems output feeItems = feeItems ++ effectsOf output.
Proof.
  destruct output; cbn; rewrite ?app_nil_r; try done.
  apply foldl_feeItems.
Qed.

Lemma allStrings_eq (arr : list Value) :
  forall expressions : list string,
    allStrings arr expressions
    = if forallb isString arr then expressions ++ stringsOf arr else [].
Proof.
  unfold stringsOf.
  induction arr as [|item arr IH]; intros expressions; cbn.
  - by rewrite app_nil_r.
  - destruct item; cbn; try done.
    rewrite IH. destruct (forallb isString arr); [|done].
    by rewrite <- app_assoc.
Qed.

Section ProtocolFacts.

Context `{expr.Evaluator}.

(** The loop over the expressions of an array gathers what [evalEach]
    gathers. *)
Lemma forEach_evalEach (exprs : list string) :
  forall (acc : list FeeItem) (st : evalState),
    forEach (fun feeItems subExpr =>
               bind (executeSingleExpression subExpr)
                 (fun subOutput => ret (extractFeeItems subOutput feeItems)))
      exprs acc st
    = match evalEach exprs st with
      | inl err => inl err
      | inr (items, st') => inr (acc ++ items, st')
      end.
Proof.
  induction exprs as [|e exprs IH]; intros acc st; cbn.
  - unfold ret. by rewrite app_nil_r.
  - unfold bind at 1 2 4.
    destruct (executeSingleExpression e st) as [err|[v st1]]; [done|].
    unfold ret at 1. rewrite IH, extractFeeItems_effectsOf.
    unfold bind.
    destruct (evalEach exprs st1) as [err|[rest st2]]; [done|].
    unfold ret. by rewrite <- app_assoc.
Qed.

Lemma collectFeeItems_protocol (output : Value) (st : evalState) :
  collectFeeItems output st = protocolEffects output st.
Proof.
  unfold collectFeeItems, protocolEffects.
  destruct output as [| | | | | | | | | | | | | | | | |exprs|arr| |];
    try reflexivity.
  - cbn [extractExpressionStrings].
    destruct exprs as [|e exprs]; [reflexivity|].
    cbn [length Nat.ltb Nat.leb]. rewrite forEach_evalEach.
    by destruct (evalEach (e :: exprs) st) as [err|[items st']].
  - cbn [extractExpressionStrings].
    destruct arr as [|item arr]; [reflexivity|].
    cbn [length Nat.ltb Nat.leb]. rewrite allStrings_eq. cbn [app].
    destruct (forallb isString (item :: arr)) eqn:Hall.
    + destruct item; try discriminate Hall.
      change (stringsOf (VString s :: arr)) with (s :: stringsOf arr).
      cbn [length]. rewrite forEach_evalEach.
      by destruct (evalEach (s :: stringsOf arr) st) as [err|[items st']].
    + cbn [length Nat.ltb Nat.leb]. unfold ret.
      by rewrite extractFeeItems_effectsOf.
Qed.

(** What [executeExpression] returns for the fee items and the tracked
    updates a rule ends with: a result that holds these fee items and
    these updates, nil when there are neither. *)
Lemma packResult_holds (feeItems : list FeeItem)
    (updates : gmap string Value) :
  resultFeeItems (packResult feeItems updates) = feeItems
  /\ resultUpdates (packResult feeItems updates) = updates
  /\ (packResult feeItems updates = None
      <-> feeItems = [] /\ updates = ∅).
Proof.
  unfold packResult.
  destruct (0 <? size updates)%nat eqn:Hsize.
  - assert (updates <> ∅) as Hne.
    { apply map_size_non_empty_iff. apply Nat.ltb_lt in Hsize. lia. }
    destruct feeItems; cbn; (split; [done|]); (split; [done|]);
      split; [done | by intros [_ ?] | done | by intros [? _]].
  - assert (updates = ∅) as ->.
    { apply map_size_empty_iff. apply Nat.ltb_ge in Hsize. lia. }
    destruct feeItems; cbn; (split; [done|]); (split; [done|]);
      split; [done | done | done | by intros [? _]].
Qed.

(** C9 (amended): the fee items a rule records, that is, the fee items of
    the result [executeExpression] returns, are those the evaluation
    protocol names for the value its result expression returns: a single
    Monetary Effect is recorded; the strings of a sequence that holds
    only strings are evaluated at once, one after the other on the same
    environment, by the evaluator itself and not through the
    preprocessor or the queue, and the effects they return are gathered
    in order; the Monetary Effects standing in any other sequence the
    expression language builds are recorded in order; nil and every
    other value, a [[]FeeItem] included, record nothing.  The result
    holds nothing else but the variables the rule has set, and it is nil
    when there is neither an effect nor a variable. *)
Theorem executeExpression_protocol (exprStr : string) (ctx : Context.t) :
  (forall output st, collectFeeItems output st = protocolEffects output st)
  /\ if decide (exprStr = "") then executeExpression exprStr ctx = inr None
     else
       match runStatements (preprocessExpression exprStr)
               {| env := initialEnv (Context.Vars ctx);
                  contextUpdates := ∅ |} with
       | inl err => executeExpression exprStr ctx = inl err
       | inr (output, st) =>
           match protocolEffects output st with
           | inl err => executeExpression exprStr ctx = inl err
           | inr (feeItems, st') =>
               exists result,
                 executeExpression exprStr ctx = inr result
                 /\ resultFeeItems result = feeItems
                 /\ resultUpdates result = contextUpdates st'
                 /\ (result = None
                     <-> feeItems = [] /\ contextUpdates st' = ∅)
           end
       end.
Proof.
  split; [exact collectFeeItems_protocol|].
  unfold executeExpression. case_decide; [done|].
  unfold bind.
  destruct (runStatements _ _) as [err|[output st]]; [done|].
  rewrite collectFeeItems_protocol.
  destruct (protocolEffects output st) as [err|[feeItems st']]; [done|].
  eexists. split; [reflexivity|]. apply packResult_holds.
Qed.

End ProtocolFacts.

(** C9 (counterexample): the rule [fees] returns the variable of that
    name, an ordered sequence of two Monetary Effects of the type
    [[]FeeItem], and records none of them: its result is nil. *)
Lemma executeExpression_typed_sequence :
  Context.Vars (Demo.withVar "fees" (VFeeItems [Demo.usd10; Demo.eur200]))
    !! "fees"
  = Some (VFeeItems [Demo.usd10; Demo.eur200])
  /\ @runStatements Demo.evaluator (preprocessExpression "fees")
       {| env := initialEnv
                   (Context.Vars
                      (Demo.withVar "fees"
                         (VFeeItems [Demo.usd10; Demo.eur200])));
          contextUpdates := ∅ |}
     = inr (VFeeItems [Demo.usd10; Demo.eur200],
            {| env := initialEnv
                        (Context.Vars
                           (Demo.withVar "fees"
                              (VFeeItems [Demo.usd10; Demo.eur200])));
               contextUpdates := ∅ |})
  /\ @executeExpression Demo.evaluator "fees"
       (Demo.withVar "fees" (VFeeItems [Demo.usd10; Demo.eur200]))
     = inr None
  /\ resultFeeItems None <> [Demo.usd10; Demo.eur200].
Proof. vm_compute. repeat split; discriminate. Qed.

(** The scenario of [TestFeeEngine_ExpressionArray], with the rules of
    the table: a rule that returns two expressions records the effect of
    each, in order. *)
Example executeExpression_array :
  @executeExpression Demo.evaluator Demo.twoExpressions
    (Demo.contextOf (New None))
  = inr (Some {| RuleResult.FeeItems := [Demo.usd10; Demo.eur200];
                 RuleResult.Context := None |}).
Proof. vm_compute. reflexivity. Qed.

(** * Further properties *)

(** ** Calls and what they leave *)

Section MoreCalls.

Context `{expr.Evaluator}.

(** The loop stops on the error of a rule or on an index out of range,
    on nothing else. *)
Lemma executeLoop_error_kind (rules : list string) (n : nat) :
  forall (i p : Z) (c : Context.t) (err : error),
    (executeLoop rules n i p c).2 = inl err ->
    (exists j cause, err = errRuleAt j cause)
    \/ err = panic "index out of range".
Proof.
  induction n as [|n IH]; intros i p c err; cbn; [done|].
  destruct (index rules i) as [rule|]; [|intros [= <-]; by right].
  unfold executeAt.
  destruct (executeRule rule c) as [cause|result]; cbn.
  - intros [= <-]. left. eauto.
  - destruct (processRuleResult result c) as [items c1]. apply IH.
Qed.

(** The loop only appends to the effects and to the logs. *)
Lemma executeLoop_extends (rules : list string) (n : nat) :
  forall (i p : Z) (c : Context.t),
    Context.FeeItems c `prefix_of`
      Context.FeeItems (executeLoop rules n i p c).1
    /\ Context.Logs c `prefix_of` Context.Logs (executeLoop rules n i p c).1.
Proof.
  induction n as [|n IH]; intros i p c; cbn; [done|].
  destruct (index rules i) as [rule|]; [|done].
  rewrite executeAt_eq.
  destruct (executeExpression rule c) as [cause|result]; [done|].
  destruct (IH (i + 1) (p + 1)
              (logRule rule (resultFeeItems result) (merged result c)))
    as [Hfee Hlog].
  split.
  - etrans; [|exact Hfee]. unfold logRule.
    destruct c as [? ? ? ? [] ?]; cbn; by apply prefix_app_r.
  - etrans; [|exact Hlog]. unfold logRule.
    destruct c as [? ? ? ? [] ?]; cbn; [by apply prefix_app_r|done].
Qed.

(** X1: a call of [ExecuteN] that succeeds with rules left to run leaves
    the cursor at the smaller of cursor + count and the queue length,
    reports the difference as processed, and returns the effects, the
    logs and the summary of the context it leaves in the engine. *)
Theorem ExecuteN_success_cursor (e e' : FeeEngine.t) (c : Context.t)
    (count : Z) (r : ExecuteResult.t) :
  FeeEngine.ctx e = Some c ->
  0 < count ->
  0 <= Context.lastExecutedRule c < len (FeeEngine.rules e) ->
  Context.lastExecutedRule c + count <= max_int64 ->
  ExecuteN e count = (e', inr r) ->
  FeeEngine.rules e' = FeeEngine.rules e
  /\ FeeEngine.ctx e' = Some (ExecuteResult.Context r)
  /\ Context.lastExecutedRule (ExecuteResult.Context r)
     = Z.min (Context.lastExecutedRule c + count) (len (FeeEngine.rules e))
  /\ ExecuteResult.ProcessedRules r
     = Z.min (Context.lastExecutedRule c + count) (len (FeeEngine.rules e))
       - Context.lastExecutedRule c
  /\ ExecuteResult.FeeItems r = Context.FeeItems (ExecuteResult.Context r)
  /\ ExecuteResult.Logs r = Context.Logs (ExecuteResult.Context r)
  /\ ExecuteResult.Summary r = summarizeFeeItems (ExecuteResult.FeeItems r).
Proof.
  intros Hctx Hcount Hcur Hmax.
  rewrite (ExecuteN_pending e c count) by done. cbn zeta.
  match goal with
  | |- context [executeLoop ?rs ?n ?i ?p ?c0] =>
      pose proof (executeLoop_processed rs n i p) as Hp;
      destruct (executeLoop rs n i p c0) as [c' [err|q]] eqn:Hloop
  end; [done|].
  intros [= <- <-]. cbn. repeat split.
  rewrite (Hp q c) by (by rewrite Hloop). lia.
Qed.

(** X2: [Execute] with rules left to run is [ExecuteN] for all of them:
    when it succeeds the cursor is the queue length and the processed
    count what was left; a second [Execute] then fails with the
    invalid-argument error, and [ExecuteN] for any positive count
    succeeds with nothing processed. *)
Theorem Execute_runs_all (e e' : FeeEngine.t) (c : Context.t)
    (r : ExecuteResult.t) :
  FeeEngine.ctx e = Some c ->
  0 <= Context.lastExecutedRule c < len (FeeEngine.rules e) ->
  len (FeeEngine.rules e) <= max_int64 ->
  Execute e = (e', inr r) ->
  Context.lastExecutedRule (ExecuteResult.Context r) = len (FeeEngine.rules e)
  /\ ExecuteResult.ProcessedRules r
     = len (FeeEngine.rules e) - Context.lastExecutedRule c
  /\ Execute e' = (e', inl errCountNotPositive)
  /\ forall k, 0 < k ->
       ExecuteN e' k = (e', inr (buildExecuteResult (ExecuteResult.Context r) 0)).
Proof.
  intros Hctx Hcur Hmax. unfold Execute. rewrite Hctx.
  rewrite to_int64_id by (unfold is_int64, min_int64, max_int64 in *; lia).
  rewrite (ExecuteN_pending e c) by (done || lia). cbn zeta.
  replace (Context.lastExecutedRule c
           + (len (FeeEngine.rules e) - Context.lastExecutedRule c))
    with (len (FeeEngine.rules e)) by lia.
  rewrite Z.min_id.
  match goal with
  | |- context [executeLoop ?rs ?n ?i ?p ?c0] =>
      pose proof (executeLoop_processed rs n i p) as Hp;
      destruct (executeLoop rs n i p c0) as [c' [err|q]] eqn:Hloop
  end; [done|].
  intros [= <- <-]. cbn [ExecuteResult.Context ExecuteResult.ProcessedRules
                         buildExecuteResult Context.lastExecutedRule
                         Context.setLastExecutedRule FeeEngine.ctx
                         FeeEngine.rules].
  split; [done|]. split; [rewrite (Hp q c) by (by rewrite Hloop); lia|].
  split.
  - rewrite Z.sub_diag. reflexivity.
  - intros k Hk. by apply ExecuteN_exhausted; cbn; [|lia..].
Qed.

(** X3: whatever a call of [ExecuteN] returns, the engine keeps its
    rules and a context, and the effects and the logs of the context
    only grow: what was there before the call is a prefix of what is
    there after it. *)
Theorem ExecuteN_append_only (e : FeeEngine.t) (c : Context.t) (count : Z) :
  FeeEngine.ctx e = Some c ->
  exists c',
    FeeEngine.ctx (ExecuteN e count).1 = Some c'
    /\ FeeEngine.rules (ExecuteN e count).1 = FeeEngine.rules e
    /\ Context.FeeItems c `prefix_of` Context.FeeItems c'
    /\ Context.Logs c `prefix_of` Context.Logs c'
    /\ Context.enableLog c' = Context.enableLog c.
Proof.
  intros Hctx. unfold ExecuteN. rewrite Hctx.
  destruct (count <=? 0); [by exists c|].
  destruct (Context.lastExecutedRule c >=? len (FeeEngine.rules e));
    [by exists c|].
  cbn zeta.
  match goal with
  | |- context [executeLoop ?rs ?n ?i ?p ?c0] =>
      pose proof (executeLoop_extends rs n i p c0) as [Hfee Hlog];
      pose proof (executeLoop_frame rs n i p c0) as (_ & Hen & _);
      destruct (executeLoop rs n i p c0) as [c' [err|q]]
  end; cbn in *; eexists; (split; [reflexivity|]); by cbn.
Qed.

(** X4: a call of [ExecuteN] whose count does not overflow the cursor
    keeps the cursor between 0 and the queue length and never moves it
    back, whatever the call returns. *)
Theorem ExecuteN_cursor_bounds (e : FeeEngine.t) (c : Context.t)
    (count : Z) :
  FeeEngine.ctx e = Some c ->
  0 <= Context.lastExecutedRule c <= len (FeeEngine.rules e) ->
  Context.lastExecutedRule c + count <= max_int64 ->
  exists c',
    FeeEngine.ctx (ExecuteN e count).1 = Some c'
    /\ Context.lastExecutedRule c <= Context.lastExecutedRule c'
       <= len (FeeEngine.rules (ExecuteN e count).1).
Proof.
  intros Hctx Hcur Hmax.
  destruct (Z_le_gt_dec count 0) as [Hneg|Hpos].
  { unfold ExecuteN. rewrite Hctx.
    destruct (Z.leb_spec count 0) as [_|?]; [|lia].
    exists c. cbn. split; [done|lia]. }
  destruct (Z_lt_le_dec (Context.lastExecutedRule c)
              (len (FeeEngine.rules e))) as [Hlt|Hge].
  2:{ rewrite (ExecuteN_exhausted e c count) by (done || lia).
      exists c. cbn. split; [done|lia]. }
  rewrite (ExecuteN_pending e c count) by (done || lia). cbn zeta.
  match goal with
  | |- context [executeLoop ?rs ?n ?i ?p ?c0] =>
      pose proof (executeLoop_frame rs n i p c0) as (_ & _ & Hsame);
      destruct (executeLoop rs n i p c0) as [c' [err|q]]
  end; cbn in *; eexists; (split; [reflexivity|]); cbn; lia.
Qed.

(** X6: an engine built by [New] has a context after any sequence of
    calls: [ExecuteN] never returns the nil-context error on it, and
    [Execute] on it is [ExecuteN] for the rules that are left. *)
Theorem New_engine_has_context (ctx0 : option Context.t) (ops : list Op)
    (count : Z) :
  (ExecuteN (applyOps (New ctx0) ops) count).2 <> inl errContextNil
  /\ exists c,
       FeeEngine.ctx (applyOps (New ctx0) ops) = Some c
       /\ Execute (applyOps (New ctx0) ops)
          = ExecuteN (applyOps (New ctx0) ops)
              (to_int64 (len (FeeEngine.rules (applyOps (New ctx0) ops))
                         - Context.lastExecutedRule c)).
Proof.
  destruct (applyOps_keeps _ ops _ (New_keeps ctx0)) as (c & Hctx & _).
  split.
  - unfold ExecuteN. rewrite Hctx.
    destruct (count <=? 0); [done|].
    destruct (Context.lastExecutedRule c >=? len _); [done|].
    cbn zeta.
    match goal with
    | |- context [executeLoop ?rs ?n ?i ?p ?c0] =>
        pose proof (executeLoop_error_kind rs n i p c0) as Hkind;
        destruct (executeLoop rs n i p c0) as [c' [err|q]]
    end; [|done].
    cbn in *. intros [= ->].
    by destruct (Hkind _ eq_refl) as [(j & cause & ?)|?].
  - exists c. split; [done|]. unfold Execute. by rewrite Hctx.
Qed.

End MoreCalls.

(** ** Merging and logging *)

(** X7: merging a rule result writes each updated variable over the old
    value and leaves every other variable as it is, in whatever order Go
    ranges over the updates; the fee items of the result are appended to
    the effects, and the logs and the cursor are not touched. *)
Theorem processRuleResult_lookup (result : option RuleResult.t)
    (c : Context.t) (key : string) :
  Context.Vars (processRuleResult result c).2 !! key
  = match resultUpdates result !! key with
    | Some value => Some value
    | None => Context.Vars c !! key
    end
  /\ Context.FeeItems (processRuleResult result c).2
     = Context.FeeItems c ++ resultFeeItems result
  /\ (processRuleResult result c).1 = resultFeeItems result
  /\ Context.Logs (processRuleResult result c).2 = Context.Logs c
  /\ Context.lastExecutedRule (processRuleResult result c).2
     = Context.lastExecutedRule c.
Proof.
  rewrite processRuleResult_eq. cbn. repeat split.
  rewrite lookup_union.
  by destruct (resultUpdates result !! key), (Context.Vars c !! key).
Qed.

Section Logging.

Context `{expr.Evaluator}.

(** What a loop that succeeds has done, rule by rule: one entry for each
    turn, whether or not it is logged. *)
Lemma executeLoop_trace (rules : list string) (n : nat) :
  forall (i p p' : Z) (c c' : Context.t),
    executeLoop rules n i p c = (c', inr p') ->
    exists entries : list Log.t,
      length entries = n
      /\ Log.Rule <$> entries = take n (drop (Z.to_nat i) rules)
      /\ Context.FeeItems c'
         = Context.FeeItems c ++ concat (Log.FeeItems <$> entries)
      /\ Context.Logs c'
         = (if Context.enableLog c then Context.Logs c ++ entries
            else Context.Logs c)
      /\ (n <> O -> Log.Vars <$> last entries = Some (Context.Vars c')).
Proof.
  induction n as [|n IH]; intros i p p' c c'; cbn [executeLoop].
  - intros [= <- <-]. exists []. cbn. rewrite !app_nil_r.
    repeat split; [by destruct (Context.enableLog c)|done].
  - unfold index. destruct (Z.ltb_spec i 0) as [?|Hi]; [done|].
    destruct (rules !! Z.to_nat i) as [rule|] eqn:Hrule; [|done].
    rewrite executeAt_eq.
    destruct (executeExpression rule c) as [cause|result]; [done|].
    intros Hloop. pose proof Hloop as Hend. apply IH in Hloop
      as (entries & Hlen & Hrules & Hfee & Hlogs & Hlast).
    exists ({| Log.Rule := rule;
               Log.Vars := Context.Vars (merged result c);
               Log.FeeItems := resultFeeItems result |} :: entries).
    split; [cbn; by rewrite Hlen|]. split.
    { cbn. rewrite Hrules, (drop_S _ _ _ Hrule). cbn.
      by replace (Z.to_nat (i + 1)) with (S (Z.to_nat i)) by lia. }
    split.
    { rewrite Hfee. unfold logRule.
      destruct c as [? ? ? ? [] ?]; cbn; by rewrite <- app_assoc. }
    split.
    { rewrite Hlogs. unfold logRule.
      destruct c as [? ? ? ? [] ?]; cbn; [by rewrite <- app_assoc|done]. }
    intros _. rewrite last_cons. destruct n as [|n].
    + destruct entries; [|done]. cbn in Hend. injection Hend as <- _.
      cbn. f_equal. unfold logRule. by destruct c as [? ? ? ? [] ?].
    + specialize (Hlast ltac:(done)).
      by destruct (last entries).
Qed.

(** With logging off the loop leaves the logs alone, however it ends. *)
Lemma executeLoop_logs_off (rules : list string) (n : nat) :
  forall (i p : Z) (c : Context.t),
    Context.enableLog c = false ->
    Context.Logs (executeLoop rules n i p c).1 = Context.Logs c.
Proof.
  induction n as [|n IH]; intros i p c Hoff; cbn; [done|].
  destruct (index rules i) as [rule|]; [|done].
  rewrite executeAt_eq.
  destruct (executeExpression rule c) as [cause|result]; [done|].
  rewrite IH; unfold logRule; cbn; by rewrite Hoff.
Qed.

(** X8: with logging enabled, a call of [ExecuteN] that succeeds appends
    to the logs one entry for each rule it processed and nothing else,
    and the rule texts of the entries are the queued rules from the
    cursor on, in queue order. *)
Theorem ExecuteN_log_entries (e e' : FeeEngine.t) (c : Context.t)
    (count : Z) (r : ExecuteResult.t) :
  FeeEngine.ctx e = Some c ->
  Context.enableLog c = true ->
  ExecuteN e count = (e', inr r) ->
  exists entries : list Log.t,
    ExecuteResult.Logs r = Context.Logs c ++ entries
    /\ len entries = ExecuteResult.ProcessedRules r
    /\ Log.Rule <$> entries
       = take (length entries)
           (drop (Z.to_nat (Context.lastExecutedRule c)) (FeeEngine.rules e)).
Proof.
  intros Hctx Hon. unfold ExecuteN. rewrite Hctx.
  destruct (count <=? 0); [done|].
  destruct (Context.lastExecutedRule c >=? len (FeeEngine.rules e)).
  { intros [= <- <-]. exists []. cbn. by rewrite app_nil_r. }
  cbn zeta.
  match goal with
  | |- context [executeLoop ?rs ?n ?i ?p ?c0] =>
      pose proof (executeLoop_processed rs n i p) as Hp;
      pose proof (executeLoop_trace rs n i p) as Htrace;
      destruct (executeLoop rs n i p c0) as [c' [err|q]] eqn:Hloop
  end; [done|].
  intros [= <- <-].
  destruct (Htrace q c c' Hloop) as (entries & Hlen & Hrules & _ & Hlogs & _).
  assert (q = len entries) as ->.
  { rewrite (Hp q c) by (by rewrite Hloop). unfold len. rewrite Hlen.
    apply Z.add_0_l. }
  exists entries. cbn [ExecuteResult.Logs ExecuteResult.ProcessedRules
                       buildExecuteResult Context.Logs
                       Context.setLastExecutedRule].
  rewrite Hlogs, Hon. split; [done|]. split; [done|].
  rewrite Hrules. by rewrite Hlen.
Qed.

(** X9: with logging enabled, the effects a successful call of
    [ExecuteN] adds to the context are the effects of the entries it
    logs, entry after entry, and the variables its last entry records
    are the variables of the context when the call returns. *)
Theorem ExecuteN_log_effects (e e' : FeeEngine.t) (c : Context.t)
    (count : Z) (r : ExecuteResult.t) :
  FeeEngine.ctx e = Some c ->
  Context.enableLog c = true ->
  ExecuteN e count = (e', inr r) ->
  exists entries : list Log.t,
    ExecuteResult.Logs r = Context.Logs c ++ entries
    /\ ExecuteResult.FeeItems r
       = Context.FeeItems c ++ concat (Log.FeeItems <$> entries)
    /\ (entries <> [] ->
        Log.Vars <$> last entries
        = Some (Context.Vars (ExecuteResult.Context r))).
Proof.
  intros Hctx Hon. unfold ExecuteN. rewrite Hctx.
  destruct (count <=? 0); [done|].
  destruct (Context.lastExecutedRule c >=? len (FeeEngine.rules e)).
  { intros [= <- <-]. exists []. cbn. by rewrite !app_nil_r. }
  cbn zeta.
  match goal with
  | |- context [executeLoop ?rs ?n ?i ?p ?c0] =>
      pose proof (executeLoop_trace rs n i p) as Htrace;
      destruct (executeLoop rs n i p c0) as [c' [err|q]] eqn:Hloop
  end; [done|].
  intros [= <- <-].
  destruct (Htrace q c c' Hloop)
    as (entries & Hlen & _ & Hfee & Hlogs & Hlast).
  exists entries. cbn. rewrite Hlogs, Hon. split; [done|]. split; [done|].
  intros Hne. apply Hlast. intros Hn. rewrite Hn in Hlen.
  by destruct entries.
Qed.

(** X10: with logging disabled a call of [ExecuteN] leaves the logs of
    the context as they are, whatever it returns. *)
Theorem ExecuteN_logs_off (e : FeeEngine.t) (c : Context.t) (count : Z) :
  FeeEngine.ctx e = Some c ->
  Context.enableLog c = false ->
  exists c',
    FeeEngine.ctx (ExecuteN e count).1 = Some c'
    /\ Context.Logs c' = Context.Logs c.
Proof.
  intros Hctx Hoff. unfold ExecuteN. rewrite Hctx.
  destruct (count <=? 0); [by exists c|].
  destruct (Context.lastExecutedRule c >=? len (FeeEngine.rules e));
    [by exists c|].
  cbn zeta.
  match goal with
  | |- context [executeLoop ?rs ?n ?i ?p ?c0] =>
      pose proof (executeLoop_logs_off rs n i p c0 Hoff) as Hlogs;
      destruct (executeLoop rs n i p c0) as [c' [err|q]]
  end; cbn in *; eexists; (split; [reflexivity|]); by cbn.
Qed.

Lemma executeAt_sameButLogs (i : Z) (rule : string) (c1 c2 : Context.t) :
  sameButLogs c1 c2 ->
  match executeAt i rule c1, executeAt i rule c2 with
  | inl err1, inl err2 => err1 = err2
  | inr c1', inr c2' => sameButLogs c1' c2'
  | _, _ => False
  end.
Proof.
  intros (Hjson & Hvars & Hfee & Hcur). rewrite !executeAt_eq.
  rewrite (executeExpression_vars rule c1 c2 Hvars).
  destruct (executeExpression rule c2) as [cause|result]; [done|].
  unfold sameButLogs, logRule.
  destruct c1 as [? ? ? ? [] ?], c2 as [? ? ? ? [] ?]; cbn in *;
    by subst.
Qed.

Lemma executeLoop_sameButLogs (rules : list string) (n : nat) :
  forall (i p : Z) (c1 c2 : Context.t),
    sameButLogs c1 c2 ->
    sameButLogs (executeLoop rules n i p c1).1 (executeLoop rules n i p c2).1
    /\ (executeLoop rules n i p c1).2 = (executeLoop rules n i p c2).2.
Proof.
  induction n as [|n IH]; intros i p c1 c2 Hsame; cbn; [done|].
  destruct (index rules i) as [rule|]; [|done].
  pose proof (executeAt_sameButLogs i rule c1 c2 Hsame) as Hat.
  destruct (executeAt i rule c1) as [err1|c1'],
           (executeAt i rule c2) as [err2|c2']; try done.
  - by subst.
  - by apply IH.
Qed.

(** X11: enabling logging changes nothing but the logs: a call of
    [ExecuteN] on the engine with logging enabled returns the same error,
    or the same processed count, effects and summary, as the call on the
    engine as it is, and leaves the same variables, effects and cursor. *)
Theorem EnableLog_same_outcome (e : FeeEngine.t) (count : Z) :
  match FeeEngine.ctx (ExecuteN e count).1,
        FeeEngine.ctx (ExecuteN (EnableLog e) count).1 with
  | Some c1, Some c2 => sameButLogs c1 c2
  | None, None => True
  | _, _ => False
  end
  /\ match (ExecuteN e count).2, (ExecuteN (EnableLog e) count).2 with
     | inl err1, inl err2 => err1 = err2
     | inr r1, inr r2 =>
         ExecuteResult.ProcessedRules r1 = ExecuteResult.ProcessedRules r2
         /\ ExecuteResult.FeeItems r1 = ExecuteResult.FeeItems r2
         /\ ExecuteResult.Summary r1 = ExecuteResult.Summary r2
     | _, _ => False
     end.
Proof.
  destruct e as [[c|] rules]; [|done].
  unfold ExecuteN, EnableLog.
  cbn [FeeEngine.ctx FeeEngine.rules fmap option_fmap option_map
       Context.lastExecutedRule Context.setEnableLog].
  assert (sameButLogs c (Context.setEnableLog true c)) as Hself by done.
  destruct (count <=? 0); [by split|].
  destruct (Context.lastExecutedRule c >=? len rules); [by split|].
  cbn zeta.
  match goal with
  | |- context [executeLoop ?rs ?n ?i ?p c] =>
      destruct (executeLoop_sameButLogs rs n i p c
                  (Context.setEnableLog true c) Hself) as [Hsame Hout];
      destruct (executeLoop rs n i p c) as [c1 [err1|q1]],
               (executeLoop rs n i p (Context.setEnableLog true c))
                 as [c2 [err2|q2]]
  end; cbn in *; try done.
  - split; [done|]. congruence.
  - injection Hout as <-. destruct Hsame as (? & ? & Hfee & ?).
    unfold sameButLogs. cbn. by rewrite Hfee.
Qed.

(** Rules queued behind the range of a loop play no part in it. *)
Lemma executeLoop_app (rules extra : list string) (n : nat) :
  forall (i p : Z) (c : Context.t),
    0 <= i -> i + Z.of_nat n <= len rules ->
    executeLoop (rules ++ extra) n i p c = executeLoop rules n i p c.
Proof.
  induction n as [|n IH]; intros i p c Hi Hn; cbn; [done|].
  unfold index. destruct (Z.ltb_spec i 0) as [?|_]; [lia|].
  rewrite lookup_app_l by (unfold len in Hn; lia).
  destruct (rules !! Z.to_nat i) as [rule|]; [|done].
  destruct (executeAt i rule c) as [err|c1]; [done|].
  apply IH; lia.
Qed.

(** X12: rules queued behind the ones a call runs do not change the
    call: when the count stays within the rules of the engine, [ExecuteN]
    returns the same result and leaves the same context with more rules
    queued behind them as without. *)
Theorem ExecuteN_AddRule_behind (e : FeeEngine.t) (c : Context.t)
    (extra : list string) (count : Z) :
  FeeEngine.ctx e = Some c ->
  0 < count ->
  0 <= Context.lastExecutedRule c ->
  Context.lastExecutedRule c + count <= len (FeeEngine.rules e) ->
  len (FeeEngine.rules e) <= max_int64 ->
  (ExecuteN (AddRule extra e) count).2 = (ExecuteN e count).2
  /\ FeeEngine.ctx (ExecuteN (AddRule extra e) count).1
     = FeeEngine.ctx (ExecuteN e count).1
  /\ FeeEngine.rules (ExecuteN (AddRule extra e) count).1
     = FeeEngine.rules (ExecuteN e count).1 ++ extra.
Proof.
  intros Hctx Hcount Hcur Hlen Hmax.
  assert (len (FeeEngine.rules e ++ extra)
          = len (FeeEngine.rules e) + len extra) as Happ
    by (unfold len; rewrite length_app; lia).
  assert (0 <= len extra) by (unfold len; lia).
  rewrite (ExecuteN_pending e c count) by (done || lia).
  rewrite (ExecuteN_pending (AddRule extra e) c count);
    cbn [AddRule FeeEngine.ctx FeeEngine.rules]; [|done || lia..].
  cbn zeta. rewrite Happ, !Z.min_l by lia.
  rewrite executeLoop_app by lia.
  by destruct (executeLoop _ _ _ _ _) as [c' [err|q]].
Qed.

End Logging.

(** ** The environment of a rule and the helpers in it *)

(** X13: the environment a rule is evaluated in holds the helper
    functions under their seven names and, under every other name, the
    variable of the context: a context variable called [$], [Set], [Add],
    [Sub], [Mul], [Div] or [Neg] is hidden from the rules. *)
Theorem initialEnv_lookup (vars : gmap string Value) (name : string) :
  initialEnv vars !! name
  = match builtinOf name with
    | Some b => Some (VFunc b)
    | None => vars !! name
    end.
Proof.
  unfold initialEnv, builtinOf.
  repeat case_decide; subst; by simplify_map_eq.
Qed.

Module helper_facts.

Import decimal_facts.

Lemma Sub_eq (a b : Decimal) :
  Sub a b =
  {| value := value a * 10 ^ (exp a - Z.min (exp a) (exp b))
              - value b * 10 ^ (exp b - Z.min (exp a) (exp b));
     exp := Z.min (exp a) (exp b) |}.
Proof.
  unfold Sub, RescalePair, rescale.
  destruct (Z.ltb_spec (exp a) (exp b)) as [Hlt|Hge].
  - destruct (Z.eqb_spec (exp b) (exp a)) as [?|_]; [lia|].
    destruct (Z.gtb_spec (exp a) (exp b)) as [?|_]; [lia|].
    cbn. rewrite Z.min_l by lia.
    rewrite Z.sub_diag, Z.mul_1_r.
    by replace (Z.abs (exp a - exp b)) with (exp b - exp a) by lia.
  - destruct (Z.gtb_spec (exp a) (exp b)) as [Hgt|Hle].
    + destruct (Z.eqb_spec (exp a) (exp b)) as [?|_]; [lia|].
      destruct (Z.gtb_spec (exp b) (exp a)) as [?|_]; [lia|].
      cbn. rewrite Z.min_r by lia.
      rewrite Z.sub_diag, Z.mul_1_r.
      by replace (Z.abs (exp b - exp a)) with (exp a - exp b) by lia.
    + assert (exp a = exp b) as Heq by lia.
      rewrite Heq, Z.min_id, Z.sub_diag, !Z.mul_1_r. reflexivity.
Qed.

Lemma toQ_Neg (a : Decimal) : (toQ (Neg a) == - toQ a)%Q.
Proof. unfold toQ. cbn. rewrite inject_Z_opp. ring. Qed.

(** Subtracting is adding the opposite. *)
Lemma Sub_Add_Neg (a b : Decimal) : Sub a b = Add a (Neg b).
Proof. rewrite Sub_eq, Add_eq. cbn. f_equal. ring. Qed.

Lemma toQ_Sub (a b : Decimal) : (toQ (Sub a b) == toQ a - toQ b)%Q.
Proof. rewrite Sub_Add_Neg, toQ_Add, toQ_Neg. reflexivity. Qed.

Lemma sumQ_app (l1 l2 : list Q) : (sumQ (l1 ++ l2) == sumQ l1 + sumQ l2)%Q.
Proof.
  induction l1 as [|q l1 IH]; cbn.
  - by rewrite Qplus_0_l.
  - rewrite IH. by rewrite Qplus_assoc.
Qed.

Lemma totalOf_value (currency : string) (items : list FeeItem) :
  (toQ (totalOf currency items)
   == sumQ (toQ <$> amountsOf currency items))%Q.
Proof.
  unfold totalOf. rewrite currencyMap_lookup.
  destruct (amountsOf currency items) as [|a l]; [reflexivity|].
  change (toQ (foldl Add zeroValue (a :: l)) == sumQ (toQ <$> a :: l))%Q.
  rewrite toQ_foldl_Add, toQ_zeroValue, Qplus_0_l.
  reflexivity.
Qed.

End helper_facts.

Section HelperFacts.

Context `{Conversions}.

(** X14: the helpers [Add], [Sub] and [Neg] of the rule environment
    compute on the coerced operands without rounding: the number the
    result stands for is the sum, the difference, the opposite of the
    numbers the coerced operands stand for; where the coercion of an
    operand panics, the left one first, the helper panics with it. *)
Theorem env_helpers_exact (a b : Value) :
  match toDecimal a, toDecimal b with
  | inr da, inr db =>
      exists s d n,
        envAdd a b = inr s /\ envSub a b = inr d /\ envNeg a = inr n
        /\ (toQ s == toQ da + toQ db)%Q
        /\ (toQ d == toQ da - toQ db)%Q
        /\ (toQ n == - toQ da)%Q
  | inr da, inl err =>
      envAdd a b = inl err /\ envSub a b = inl err
      /\ exists n, envNeg a = inr n /\ (toQ n == - toQ da)%Q
  | inl err, _ =>
      envAdd a b = inl err /\ envSub a b = inl err /\ envNeg a = inl err
  end.
Proof.
  unfold envAdd, envSub, envNeg.
  destruct (toDecimal a) as [err|da], (toDecimal b) as [err'|db];
    try done.
  - repeat split. eexists. split; [done|]. apply helper_facts.toQ_Neg.
  - eexists _, _, _. repeat split.
    + apply decimal_facts.toQ_Add.
    + apply helper_facts.toQ_Sub.
    + apply helper_facts.toQ_Neg.
Qed.

End HelperFacts.

(** X15: the total of a currency over two effect lists put end to end
    is, as a number, the sum of its totals over each: what a later call
    adds to the effects adds to the summary of the earlier ones. *)
Theorem totalOf_app (currency : string) (items1 items2 : list FeeItem) :
  (toQ (totalOf currency (items1 ++ items2))
   == toQ (totalOf currency items1) + toQ (totalOf currency items2))%Q.
Proof.
  rewrite !helper_facts.totalOf_value. unfold amountsOf.
  rewrite filter_app, !fmap_app. apply helper_facts.sumQ_app.
Qed.

(** X16: a rule result that is not nil has fee items or variable
    updates; the context that carries its updates holds at least one
    variable and nothing else - no effects, no logs, cursor 0. *)
Theorem executeExpression_result `{expr.Evaluator} (exprStr : string)
    (ctx : Context.t) (r : RuleResult.t) :
  executeExpression exprStr ctx = inr (Some r) ->
  (RuleResult.FeeItems r <> [] \/ RuleResult.Context r <> None)
  /\ forall rc, RuleResult.Context r = Some rc ->
       Context.Vars rc <> ∅
       /\ Context.FeeItems rc = []
       /\ Context.Logs rc = []
       /\ Context.lastExecutedRule rc = 0.
Proof.
  unfold executeExpression. case_decide; [done|].
  destruct (bind _ _ _) as [err|[feeItems st]]; [done|].
  unfold packResult.
  destruct (0 <? size (contextUpdates st))%nat eqn:Hsize.
  - assert (contextUpdates st <> ∅) as Hne.
    { apply map_size_non_empty_iff. apply Nat.ltb_lt in Hsize. lia. }
    destruct feeItems; intros [= <-]; cbn; (split; [by right|]);
      by intros rc [= <-].
  - destruct feeItems; [done|]. intros [= <-]. cbn.
    split; [by left|done].
Qed.

(** ** The preprocessor *)

Module preprocess_facts.

Import strings regexp.

Lemma bytes_ofBytes (l : list ascii) : bytes (ofBytes l) = l.
Proof. apply list_ascii_of_string_of_list_ascii. Qed.

Lemma ofBytes_bytes (s : string) : ofBytes (bytes s) = s.
Proof. apply string_of_list_ascii_of_string. Qed.

Lemma span_app (p : ascii -> bool) (s : list ascii) :
  s = (span p s).1 ++ (span p s).2.
Proof.
  induction s as [|c s IH]; [done|]. cbn.
  destruct (p c); [|done]. destruct (span p s) as [a b]. cbn in *.
  by rewrite IH at 1.
Qed.

Lemma span_forall (p : ascii -> bool) (s : list ascii) :
  forallb p (span p s).1 = true.
Proof.
  induction s as [|c s IH]; [done|]. cbn.
  destruct (p c) eqn:Hc; [|done]. destruct (span p s) as [a b]. cbn in *.
  by rewrite Hc.
Qed.

Lemma isIdentStart_isWord (c : ascii) :
  isIdentStart c = true -> isWord c = true.
Proof.
  unfold isIdentStart, isWord. cbn zeta.
  destruct (_ && _), (_ && _), (_ && _), (_ =? _)%N; done.
Qed.

(** A match at the head of [s]: the name is the run of word bytes [s]
    starts with, an [=] follows it, and the rest is not empty and holds
    no newline. *)
Lemma matchAssignmentAt_Some (s ident rest : list ascii) :
  matchAssignmentAt s = Some (ident, rest) ->
  ident = (span isWord s).1
  /\ "="%char ∈ s
  /\ rest <> []
  /\ existsb isNewline rest = false.
Proof.
  unfold matchAssignmentAt.
  pose proof (span_app isWord s) as Hs.
  destruct (span isWord s) as [a r1]. cbn in Hs.
  pose proof (span_app isSpace r1) as Hr1.
  destruct (span isSpace r1) as [w1 r2]. cbn in Hr1.
  destruct r2 as [|c r3]; [done|].
  destruct (decide (c = "="%char)) as [->|Hne].
  2:{ by destruct c as [[] [] [] [] [] [] [] []]. }
  assert ("="%char ∈ s) as Hin.
  { rewrite Hs, Hr1. rewrite !elem_of_app. right. right. by left. }
  destruct (span isSpace r3) as [ws rest'].
  destruct rest' as [|x rest'].
  - destruct (last ws) as [l|]; [|done].
    destruct (isNewline l) eqn:Hl; [done|].
    intros [= <- <-]. cbn. by rewrite Hl.
  - destruct (existsb isNewline (x :: rest')) eqn:Hnl; [done|].
    by intros [= <- <-].
Qed.

Lemma findAssignment_Some (s : list ascii) :
  forall (prevWord : bool) (ident rest : list ascii),
    findAssignment prevWord s = Some (ident, rest) ->
    "="%char ∈ s
    /\ rest <> []
    /\ existsb isNewline rest = false
    /\ exists c cs,
         ident = c :: cs /\ isIdentStart c = true
         /\ forallb isWord cs = true.
Proof.
  induction s as [|c s IH]; intros prevWord ident rest; [done|].
  cbn [findAssignment].
  assert (findAssignment (isWord c) s = Some (ident, rest) ->
          "="%char ∈ c :: s
          /\ rest <> []
          /\ existsb isNewline rest = false
          /\ exists c0 cs,
               ident = c0 :: cs /\ isIdentStart c0 = true
               /\ forallb isWord cs = true) as Hnext.
  { intros Hf. destruct (IH _ _ _ Hf) as (Hin & ?). split; [|done].
    by right. }
  destruct (negb prevWord && isIdentStart c) eqn:Hhere; [|exact Hnext].
  destruct (matchAssignmentAt (c :: s)) as [[i r]|] eqn:Hm; [|exact Hnext].
  intros [= -> ->].
  destruct (matchAssignmentAt_Some _ _ _ Hm) as (Hid & Hin & Hrest & Hnl).
  split; [done|]. split; [done|]. split; [done|].
  apply andb_true_iff in Hhere as [_ Hstart].
  pose proof (span_forall isWord (c :: s)) as Hall.
  rewrite <- Hid in Hall. cbn in Hid.
  rewrite (isIdentStart_isWord c Hstart) in Hid.
  destruct (span isWord s) as [a b]. cbn in Hid. subst ident.
  exists c, a. cbn in Hall. apply andb_true_iff in Hall as [_ Hall].
  done.
Qed.

Lemma elem_of_rev_list (x : ascii) (l : list ascii) : x ∈ rev l <-> x ∈ l.
Proof. rewrite !list_elem_of_In. symmetry. apply in_rev. Qed.

Lemma trimLeftWith_elem (runes : list (list ascii)) (fuel : nat) :
  forall (s : list ascii) (x : ascii),
    x ∈ trimLeftWith runes fuel s -> x ∈ s.
Proof.
  induction fuel as [|fuel IH]; intros s x; cbn; [done|].
  destruct (spaceWidth runes s) as [|w]; [done|].
  intros Hx. apply IH in Hx.
  destruct (suffix_drop s (S w)) as [k Hk]. rewrite Hk.
  apply elem_of_app. by right.
Qed.

Lemma TrimSpace_elem (s : string) (x : ascii) :
  x ∈ bytes (TrimSpace s) -> x ∈ bytes s.
Proof.
  unfold TrimSpace, trimRight, trimLeft. rewrite bytes_ofBytes.
  rewrite elem_of_rev_list. intros Hx.
  apply trimLeftWith_elem in Hx.
  apply (proj1 (elem_of_rev_list _ _)) in Hx.
  by apply trimLeftWith_elem in Hx.
Qed.

Lemma splitBytes_elem (sep : list ascii) (s : list ascii) :
  forall (skip : nat) (cur piece : list ascii) (x : ascii),
    piece ∈ splitBytes sep skip cur s -> x ∈ piece -> x ∈ cur \/ x ∈ s.
Proof.
  induction s as [|c s IH]; intros skip cur piece x; cbn.
  - intros ->%list_elem_of_singleton Hx. left. by apply elem_of_rev_list.
  - destruct skip as [|k].
    + destruct (isPrefix sep (c :: s)).
      * intros [->|Hp]%elem_of_cons Hx.
        -- left. by apply elem_of_rev_list.
        -- destruct (IH _ _ _ _ Hp Hx) as [Hn|Hs]; [by inversion Hn|].
           right. by right.
      * intros Hp Hx. destruct (IH _ _ _ _ Hp Hx) as [Hc|Hs].
        -- apply elem_of_cons in Hc as [->|Hc]; [right; by left|by left].
        -- right. by right.
    + intros Hp Hx. destruct (IH _ _ _ _ Hp Hx) as [Hc|Hs]; [by left|].
      right. by right.
Qed.

Lemma Split_elem (s sep part : string) (x : ascii) :
  part ∈ Split s sep -> x ∈ bytes part -> x ∈ bytes s.
Proof.
  unfold Split. intros (piece & -> & Hp)%list_elem_of_fmap.
  rewrite bytes_ofBytes. intros Hx.
  destruct (splitBytes_elem _ _ _ _ _ _ Hp Hx) as [Hn|Hs]; [|done].
  by inversion Hn.
Qed.

Lemma FindStringSubmatch_None (part : string) :
  "="%char ∉ bytes part -> FindStringSubmatch part = None.
Proof.
  intros Hno. unfold FindStringSubmatch.
  destruct (findAssignment false (bytes part)) as [[g1 g2]|] eqn:Hf; [|done].
  by destruct (findAssignment_Some _ _ _ _ Hf) as (Hin & _).
Qed.

Lemma processPart_keepPart (part : string) :
  "="%char ∉ bytes part -> processPart part = keepPart part.
Proof.
  intros Hno. unfold processPart, keepPart. cbn zeta.
  case_decide; [done|].
  rewrite FindStringSubmatch_None; [done|].
  intros Hin. by apply Hno, TrimSpace_elem.
Qed.

Lemma flat_map_agree {A B} (f g : A -> list B) (l : list A) :
  (forall a, a ∈ l -> f a = g a) -> flat_map f l = flat_map g l.
Proof.
  induction l as [|a l IH]; intros Hfg; [done|]. cbn.
  rewrite (Hfg a) by (by left). rewrite IH; [done|].
  intros b Hb. apply Hfg. by right.
Qed.

End preprocess_facts.

(** X17: a rule that holds no [=] is never rewritten: the preprocessor
    returns its statements, trimmed and with the empty ones dropped,
    joined by ["; "] (one statement alone as it is, and the rule itself
    when every statement is empty). *)
Theorem preprocessExpression_no_assignment (exprStr : string) :
  "="%char ∉ strings.bytes exprStr ->
  preprocessExpression exprStr = joinStatements exprStr.
Proof.
  intros Hno. unfold preprocessExpression, joinStatements.
  case_decide; [done|].
  rewrite (preprocess_facts.flat_map_agree processPart keepPart).
  { by destruct (flat_map keepPart _) as [|p [|q l]]. }
  intros part Hpart. apply preprocess_facts.processPart_keepPart.
  intros Hin. apply Hno. by eapply preprocess_facts.Split_elem.
Qed.

(** X18: whenever the assignment pattern matches a statement, the name
    it captures is an identifier - a letter or underscore followed by
    letters, digits and underscores, so the name put between the quotes
    of the [Set] call holds no quote - the statement holds an [=], and the
    captured remainder is not empty and holds no newline. *)
Theorem FindStringSubmatch_identifier (part name rest : string) :
  regexp.FindStringSubmatch part = Some (name, rest) ->
  (exists c cs,
     strings.bytes name = c :: cs
     /\ regexp.isIdentStart c = true
     /\ forallb regexp.isWord cs = true)
  /\ "="%char ∈ strings.bytes part
  /\ rest <> ""
  /\ existsb regexp.isNewline (strings.bytes rest) = false.
Proof.
  unfold regexp.FindStringSubmatch.
  destruct (regexp.findAssignment false (strings.bytes part))
    as [[g1 g2]|] eqn:Hf; [|done].
  intros [= <- <-].
  destruct (preprocess_facts.findAssignment_Some _ _ _ _ Hf)
    as (Hin & Hrest & Hnl & c & cs & -> & Hc & Hcs).
  rewrite !preprocess_facts.bytes_ofBytes.
  split; [by exists c, cs|]. split; [done|]. split; [|done].
  by destruct g2.
Qed.

(** ** Copies of a context, and what a rule returns *)

Section CopyFacts.

Context `{expr.Evaluator}.

(** A turn of the loop on two contexts with the same variables, effects
    and cursor, the second of which does not log. *)
Lemma executeAt_unlogged (i : Z) (rule : string) (c1 c2 : Context.t) :
  Context.Vars c1 = Context.Vars c2 ->
  Context.FeeItems c1 = Context.FeeItems c2 ->
  Context.lastExecutedRule c1 = Context.lastExecutedRule c2 ->
  Context.enableLog c2 = false ->
  match executeAt i rule c1, executeAt i rule c2 with
  | inl err1, inl err2 => err1 = err2
  | inr c1', inr c2' =>
      Context.Vars c1' = Context.Vars c2'
      /\ Context.FeeItems c1' = Context.FeeItems c2'
      /\ Context.lastExecutedRule c1' = Context.lastExecutedRule c2'
      /\ Context.enableLog c2' = false
      /\ Context.Logs c2' = Context.Logs c2
  | _, _ => False
  end.
Proof.
  intros Hvars Hfee Hcur Hoff. rewrite !executeAt_eq.
  rewrite (executeExpression_vars rule c1 c2 Hvars).
  destruct (executeExpression rule c2) as [cause|result]; [done|].
  unfold logRule.
  destruct c1 as [? ? ? ? [] ?], c2 as [? ? ? ? [] ?]; cbn in *;
    by subst.
Qed.

Lemma executeLoop_unlogged (rules : list string) (n : nat) :
  forall (i p : Z) (c1 c2 : Context.t),
    Context.Vars c1 = Context.Vars c2 ->
    Context.FeeItems c1 = Context.FeeItems c2 ->
    Context.lastExecutedRule c1 = Context.lastExecutedRule c2 ->
    Context.enableLog c2 = false ->
    Context.Vars (executeLoop rules n i p c1).1
    = Context.Vars (executeLoop rules n i p c2).1
    /\ Context.FeeItems (executeLoop rules n i p c1).1
       = Context.FeeItems (executeLoop rules n i p c2).1
    /\ Context.lastExecutedRule (executeLoop rules n i p c1).1
       = Context.lastExecutedRule (executeLoop rules n i p c2).1
    /\ Context.Logs (executeLoop rules n i p c2).1 = Context.Logs c2
    /\ (executeLoop rules n i p c1).2 = (executeLoop rules n i p c2).2.
Proof.
  induction n as [|n IH]; intros i p c1 c2 Hvars Hfee Hcur Hoff; cbn;
    [done|].
  destruct (index rules i) as [rule|]; [|done].
  pose proof (executeAt_unlogged i rule c1 c2 Hvars Hfee Hcur Hoff) as Hat.
  destruct (executeAt i rule c1) as [err1|c1'],
           (executeAt i rule c2) as [err2|c2']; try done.
  - by subst.
  - destruct Hat as (Hvars' & Hfee' & Hcur' & Hoff' & Hlogs').
    destruct (IH (i + 1) (p + 1) c1' c2' Hvars' Hfee' Hcur' Hoff')
      as (? & ? & ? & Hlogs & ?).
    by rewrite Hlogs.
Qed.

(** X22: an engine on the copy of a context runs the rules as an engine
    on the context itself does - the same error, or the same processed
    count, effects and summary, and the same variables, effects and
    cursor left behind - but never logs: the copy does not carry the
    logging switch, so its logs stay those of the context. *)
Theorem Copy_same_outcome (c : Context.t) (rules : list string)
    (count : Z) :
  exists c1 c2,
    FeeEngine.ctx
      (ExecuteN {| FeeEngine.ctx := Some c; FeeEngine.rules := rules |}
         count).1
    = Some c1
    /\ FeeEngine.ctx
         (ExecuteN {| FeeEngine.ctx := Some (Context.Copy c);
                      FeeEngine.rules := rules |} count).1
       = Some c2
    /\ Context.Vars c2 = Context.Vars c1
    /\ Context.FeeItems c2 = Context.FeeItems c1
    /\ Context.lastExecutedRule c2 = Context.lastExecutedRule c1
    /\ Context.Logs c2 = Context.Logs c
    /\ match (ExecuteN {| FeeEngine.ctx := Some c;
                          FeeEngine.rules := rules |} count).2,
             (ExecuteN {| FeeEngine.ctx := Some (Context.Copy c);
                          FeeEngine.rules := rules |} count).2 with
       | inl err1, inl err2 => err1 = err2
       | inr r1, inr r2 =>
           ExecuteResult.ProcessedRules r1 = ExecuteResult.ProcessedRules r2
           /\ ExecuteResult.FeeItems r1 = ExecuteResult.FeeItems r2
           /\ ExecuteResult.Summary r1 = ExecuteResult.Summary r2
       | _, _ => False
       end.
Proof.
  unfold ExecuteN.
  cbn [FeeEngine.ctx FeeEngine.rules].
  change (Context.lastExecutedRule (Context.Copy c))
    with (Context.lastExecutedRule c).
  destruct (count <=? 0); [by exists c, (Context.Copy c)|].
  destruct (Context.lastExecutedRule c >=? len rules);
    [by exists c, (Context.Copy c)|].
  cbn zeta.
  match goal with
  | |- context [executeLoop ?rs ?n ?i ?p c] =>
      destruct (executeLoop_unlogged rs n i p c (Context.Copy c)
                  eq_refl eq_refl eq_refl eq_refl)
        as (Hvars & Hfee & Hcur & Hlogs & Hout);
      destruct (executeLoop rs n i p c) as [c1 [err1|q1]],
               (executeLoop rs n i p (Context.Copy c)) as [c2 [err2|q2]]
  end; cbn in *; try done.
  - exists c1, c2. repeat split; try done. congruence.
  - injection Hout as <-. eexists _, _.
    split; [reflexivity|]. split; [reflexivity|]. cbn.
    by rewrite Hfee.
Qed.

End CopyFacts.

Lemma stringsOf_all (arr : list Value) :
  forallb isString arr = true ->
  feeItemsIn arr = [] /\ VString <$> stringsOf arr = arr.
Proof.
  unfold feeItemsIn, stringsOf.
  induction arr as [|item arr IH]; cbn; [done|].
  destruct item; cbn; try done.
  intros Hall. destruct (IH Hall) as [Hfee Hstr].
  split; [done|]. by rewrite Hstr.
Qed.

(** X23: a value that [extractExpressionStrings] reads as expressions is
    a sequence of strings and nothing else - the strings it returns,
    wrapped again, are the value - and [extractFeeItems] finds no fee
    item in it. *)
Theorem extractExpressionStrings_exclusive (output : Value)
    (feeItems : list FeeItem) :
  extractExpressionStrings output <> [] ->
  extractFeeItems output feeItems = feeItems
  /\ (output = VStrings (extractExpressionStrings output)
      \/ output = VSlice (VString <$> extractExpressionStrings output)).
Proof.
  intros Hne. rewrite extractFeeItems_effectsOf.
  destruct output as [| | | | | | | | | | | | | | | | |exprs|arr| |];
    try done.
  - cbn. rewrite app_nil_r. split; [done|]. by left.
  - cbn [extractExpressionStrings effectsOf] in *.
    destruct (0 <? length arr)%nat; [|done].
    rewrite allStrings_eq in *.
    destruct (forallb isString arr) eqn:Hall; [|done].
    destruct (stringsOf_all arr Hall) as [Hfee Hstr].
    cbn [app]. rewrite Hfee, app_nil_r, Hstr. split; [done|]. by right.
Qed.

(** ** Instances of the properties above *)

(** Closed facts of the instances, by evaluation. *)
Ltac evaluate :=
  vm_compute; repeat split; first [reflexivity | discriminate].

Lemma fiveRules_context :
  FeeEngine.ctx Demo.fiveRules = Some (Demo.contextOf Demo.fiveRules).
Proof. evaluate. Qed.

Lemma failing_context :
  FeeEngine.ctx Demo.failing = Some (Demo.contextOf Demo.failing).
Proof. evaluate. Qed.

(** X1 (witness): two of five rules. *)
Lemma ExecuteN_success_cursor_witness :
  exists e' r,
    Demo.executeN Demo.fiveRules 2 = (e', inr r)
    /\ Context.lastExecutedRule (ExecuteResult.Context r) = 2
    /\ ExecuteResult.ProcessedRules r = 2.
Proof.
  destruct (Demo.executeN Demo.fiveRules 2) as [e' [err|r]] eqn:Hrun;
    [vm_compute in Hrun; discriminate Hrun|].
  exists e', r. split; [reflexivity|].
  destruct (@ExecuteN_success_cursor Demo.evaluator Demo.fiveRules e'
              (Demo.contextOf Demo.fiveRules) 2 r fiveRules_context)
    as (_ & _ & Hcur & Hp & _);
    [lia | evaluate | evaluate | exact Hrun |].
  split; [rewrite Hcur | rewrite Hp]; evaluate.
Defined.

(** X2 (witness): all five rules, then another call. *)
Lemma Execute_runs_all_witness :
  exists e' r,
    Demo.execute Demo.fiveRules = (e', inr r)
    /\ ExecuteResult.ProcessedRules r = 5
    /\ Demo.execute e' = (e', inl errCountNotPositive).
Proof.
  destruct (Demo.execute Demo.fiveRules) as [e' [err|r]] eqn:Hrun;
    [vm_compute in Hrun; discriminate Hrun|].
  exists e', r. split; [reflexivity|].
  destruct (@Execute_runs_all Demo.evaluator Demo.fiveRules e'
              (Demo.contextOf Demo.fiveRules) r fiveRules_context)
    as (_ & Hp & Hagain & _); [evaluate | evaluate | exact Hrun |].
  split; [rewrite Hp; evaluate | exact Hagain].
Defined.

(** X3 (witness): a call that fails on its second rule. *)
Lemma ExecuteN_append_only_witness :
  exists c',
    FeeEngine.ctx (Demo.executeN Demo.failing 2).1 = Some c'
    /\ Context.FeeItems (Demo.contextOf Demo.failing)
       `prefix_of` Context.FeeItems c'.
Proof.
  destruct (@ExecuteN_append_only Demo.evaluator Demo.failing
              (Demo.contextOf Demo.failing) 2 failing_context)
    as (c' & Hctx & _ & Hfee & _).
  exists c'. split; [exact Hctx | exact Hfee].
Defined.

(** X4 (witness): the same call. *)
Lemma ExecuteN_cursor_bounds_witness :
  exists c',
    FeeEngine.ctx (Demo.executeN Demo.failing 2).1 = Some c'
    /\ 0 <= Context.lastExecutedRule c' <= 2.
Proof.
  destruct (@ExecuteN_cursor_bounds Demo.evaluator Demo.failing
              (Demo.contextOf Demo.failing) 2 failing_context)
    as (c' & Hctx & Hcur); [evaluate | evaluate |].
  exists c'. split; [exact Hctx | exact Hcur].
Defined.

(** X5 (witness): the same call. *)
Lemma ExecuteN_rule_error_witness :
  exists e' c',
    Demo.executeN Demo.failing 2
    = (e', inl (errRuleAt 1 (errCompile "unexpected token")))
    /\ FeeEngine.ctx e' = Some c'
    /\ Context.lastExecutedRule c'
       = Context.lastExecutedRule (Demo.contextOf Demo.failing).
Proof.
  destruct (Demo.executeN Demo.failing 2) as [e' out] eqn:Hrun.
  assert (out = inl (errRuleAt 1 (errCompile "unexpected token"))) as ->
    by (vm_compute in Hrun; by injection Hrun as <- <-).
  destruct (@ExecuteN_rule_error Demo.evaluator Demo.failing e' 2 1
              (errCompile "unexpected token") Hrun)
    as (c & c' & rule & Hc & Hc' & _ & _ & _ & _ & _ & Hcur).
  exists e', c'. split; [reflexivity|]. split; [exact Hc'|].
  rewrite Hcur. rewrite failing_context in Hc. by injection Hc as <-.
Defined.

(** X8 (witness): five rules with logging enabled. *)
Lemma ExecuteN_log_entries_witness :
  exists e' r entries,
    Demo.executeN Demo.fiveRules 5 = (e', inr r)
    /\ ExecuteResult.Logs r = entries
    /\ Log.Rule <$> entries = FeeEngine.rules Demo.fiveRules.
Proof.
  destruct (Demo.executeN Demo.fiveRules 5) as [e' [err|r]] eqn:Hrun;
    [vm_compute in Hrun; discriminate Hrun|].
  destruct (@ExecuteN_log_entries Demo.evaluator Demo.fiveRules e'
              (Demo.contextOf Demo.fiveRules) 5 r fiveRules_context)
    as (entries & Hlogs & Hlen & Hrules); [evaluate | exact Hrun |].
  exists e', r, entries. split; [reflexivity|]. split; [exact Hlogs|].
  rewrite Hrules.
  assert (length entries = 5%nat) as ->.
  { assert (ExecuteResult.ProcessedRules r = 5) as Hp
      by (vm_compute in Hrun; by injection Hrun as <- <-).
    unfold len in Hlen. lia. }
  evaluate.
Defined.

(** X9 (witness): the same call. *)
Lemma ExecuteN_log_effects_witness :
  exists e' r entries,
    Demo.executeN Demo.fiveRules 5 = (e', inr r)
    /\ ExecuteResult.Logs r = entries
    /\ ExecuteResult.FeeItems r = concat (Log.FeeItems <$> entries).
Proof.
  destruct (Demo.executeN Demo.fiveRules 5) as [e' [err|r]] eqn:Hrun;
    [vm_compute in Hrun; discriminate Hrun|].
  destruct (@ExecuteN_log_effects Demo.evaluator Demo.fiveRules e'
              (Demo.contextOf Demo.fiveRules) 5 r fiveRules_context)
    as (entries & Hlogs & Hfee & _); [evaluate | exact Hrun |].
  exists e', r, entries. split; [reflexivity|]. split; [exact Hlogs|].
  exact Hfee.
Defined.

(** X10 (witness): a call on an engine that does not log. *)
Lemma ExecuteN_logs_off_witness :
  exists c',
    FeeEngine.ctx (Demo.executeN Demo.failing 2).1 = Some c'
    /\ Context.Logs c' = [].
Proof.
  destruct (@ExecuteN_logs_off Demo.evaluator Demo.failing
              (Demo.contextOf Demo.failing) 2 failing_context)
    as (c' & Hctx & Hlogs); [evaluate|].
  exists c'. split; [exact Hctx | exact Hlogs].
Defined.

(** X12 (witness): two rules run, with and without a rule that does not
    compile queued behind them. *)
Lemma ExecuteN_AddRule_behind_witness :
  (Demo.executeN
     (AddRule [Demo.invalid] (Demo.engine [Demo.emit10USD; Demo.setX1])) 2).2
  = (Demo.executeN (Demo.engine [Demo.emit10USD; Demo.setX1]) 2).2.
Proof.
  destruct (@ExecuteN_AddRule_behind Demo.evaluator
              (Demo.engine [Demo.emit10USD; Demo.setX1])
              (Demo.contextOf (Demo.engine [Demo.emit10USD; Demo.setX1]))
              [Demo.invalid] 2)
    as (Hout & _); [evaluate | lia | evaluate | evaluate | evaluate |].
  exact Hout.
Defined.

(** X16 (witness): a rule that sets a variable. *)
Lemma executeExpression_result_witness :
  exists r rc,
    @executeExpression Demo.evaluator Demo.setX1 (Demo.contextOf (New None))
    = inr (Some r)
    /\ RuleResult.Context r = Some rc
    /\ Context.Vars rc <> ∅.
Proof.
  destruct (@executeExpression Demo.evaluator Demo.setX1
              (Demo.contextOf (New None))) as [err|[r|]] eqn:Hrun;
    [vm_compute in Hrun; discriminate Hrun | |
     vm_compute in Hrun; discriminate Hrun].
  destruct (RuleResult.Context r) as [rc|] eqn:Hrc;
    [|vm_compute in Hrun; injection Hrun as <-; discriminate Hrc].
  exists r, rc. split; [reflexivity|]. split; [exact Hrc|].
  destruct (@executeExpression_result Demo.evaluator _ _ r Hrun)
    as (_ & Hvars).
  by destruct (Hvars rc Hrc) as (Hne & _).
Defined.

(** X17 (witness): an emission after a comparison. *)
Lemma preprocessExpression_no_assignment_witness :
  preprocessExpression ("  a > b ; " +:+ Demo.emit10USD)
  = "a > b; " +:+ Demo.emit10USD.
Proof.
  rewrite preprocessExpression_no_assignment; [evaluate|].
  apply (bool_decide_unpack _). evaluate.
Defined.

(** X18 (witness): an assignment. *)
Lemma FindStringSubmatch_identifier_witness :
  regexp.FindStringSubmatch "amount = 123" = Some ("amount", "123")
  /\ "="%char ∈ strings.bytes "amount = 123".
Proof.
  assert (regexp.FindStringSubmatch "amount = 123" = Some ("amount", "123"))
    as Hm by evaluate.
  split; [exact Hm|].
  by destruct (FindStringSubmatch_identifier _ _ _ Hm) as (_ & Hin & _).
Defined.

(** X19 (witness): five rules in two calls. *)
Lemma ExecuteN_joined_witness :
  exists e1 r1 e2 r2 r,
    Demo.executeN Demo.fiveRules 2 = (e1, inr r1)
    /\ Demo.executeN e1 3 = (e2, inr r2)
    /\ Demo.executeN Demo.fiveRules (2 + 3) = (e2, inr r).
Proof.
  destruct (Demo.executeN Demo.fiveRules 2) as [e1 [err|r1]] eqn:Hrun1;
    [vm_compute in Hrun1; discriminate Hrun1|].
  destruct (Demo.executeN e1 3) as [e2 [err|r2]] eqn:Hrun2.
  { vm_compute in Hrun1. injection Hrun1 as <- <-.
    vm_compute in Hrun2. discriminate Hrun2. }
  destruct (@ExecuteN_joined Demo.evaluator Demo.fiveRules e1 e2
              (Demo.contextOf Demo.fiveRules) 2 3 r1 r2 fiveRules_context)
    as (r & Hrun & _);
    [lia | lia | evaluate | evaluate | exact Hrun1 | exact Hrun2 |].
  by exists e1, r1, e2, r2, r.
Defined.

(** X20 (witness): the first unsigned integer that does not fit. *)
Lemma toDecimal_uint64_high_witness :
  @toDecimal Demo.conversions (VUint64 (2 ^ 63))
  = inr (NewFromInt (- 2 ^ 63)).
Proof.
  destruct (@toDecimal_uint64_high Demo.conversions (2 ^ 63)) as [H64 _];
    [evaluate|].
  exact H64.
Defined.

(** X23 (witness): two expressions returned by a rule. *)
Lemma extractExpressionStrings_exclusive_witness :
  extractFeeItems (VSlice [VString Demo.emit10USD; VString Demo.setX1]) []
  = [].
Proof.
  refine (proj1 (extractExpressionStrings_exclusive
                   (VSlice [VString Demo.emit10USD; VString Demo.setX1])
                   [] _)).
  evaluate.
Defined.
